(** * matGroups: range compression and Hypermesh .bdf export

    A shallow embedding of [src/matGroups.py] and the proofs of its
    specification.  Python integers are [Z]; list indexes, which the code
    only ever builds from [0], [len] and midpoints, are [nat]; Python
    strings are [string]; the values handed to [print] are [pyval]. *)

From Stdlib Require Import String Ascii.
From Stdlib Require Import ZArith List Lia ZifyNat Bool Arith.
From Stdlib Require Import Sorting.Permutation Sorting.Sorted.
From Stdlib Require Import DecimalString DecimalPos DecimalZ.
From Stdlib Require Import Structures.OrderedTypeEx.
Import ListNotations.
Local Open Scope Z_scope.

(** ** Outcomes of a run

    Indexing a list out of range raises [IndexError] in Python.  The three
    [while] loops of [ranges] are run on fuel, and [OutOfFuel] is the
    outcome of a run that was not given enough of it. *)

Inductive outcome (A : Type) : Type :=
| Done (a : A)
| IndexError
| OutOfFuel.

Arguments Done {A} a.
Arguments IndexError {A}.
Arguments OutOfFuel {A}.

Definition bind {A B : Type} (c : outcome A) (k : A -> outcome B) : outcome B :=
  match c with
  | Done a => k a
  | IndexError => IndexError
  | OutOfFuel => OutOfFuel
  end.

Declare Scope outcome_scope.
Delimit Scope outcome_scope with outcome.
Notation "x <- c ;; k" := (bind c (fun x => k))
  (at level 61, c at next level, right associativity) : outcome_scope.
Notation "' p <- c ;; k" := (bind c (fun x => match x with p => k end))
  (at level 61, p pattern, c at next level, right associativity) : outcome_scope.
Local Open Scope outcome_scope.

(** ** [sorted]

    Python's [sorted] is a stable sort that only asks whether one element is
    less than another; it is modelled by a stable insertion sort over a
    boolean "less than". *)

Section Sort.
Context {A : Type} (ltb : A -> A -> bool).

Fixpoint insert (x : A) (l : list A) : list A :=
  match l with
  | [] => [x]
  | y :: l' => if ltb y x then y :: insert x l' else x :: l
  end.

Fixpoint sort_by (l : list A) : list A :=
  match l with
  | [] => []
  | x :: l' => insert x (sort_by l')
  end.
End Sort.

Definition sorted (intList : list Z) : list Z := sort_by Z.ltb intList.

(** ** [ranges] *)

(** [sortedInts[i]] *)
Definition getitem (sortedInts : list Z) (i : nat) : outcome Z :=
  match nth_error sortedInts i with
  | Some v => Done v
  | None => IndexError
  end.

(** Lines 62-64: the innermost loop, entered with [mid] already computed.
    It returns the final [(boundary, mid)]. *)
Fixpoint shrink (fuel : nat) (sortedInts : list Z) (upper boundary mid : nat)
  : outcome (nat * nat) :=
  match fuel with
  | O => OutOfFuel
  | S fuel' =>
      vmid <- getitem sortedInts mid ;;
      vupper <- getitem sortedInts upper ;;
      if vmid - vupper >? Z.of_nat mid - Z.of_nat upper
      then shrink fuel' sortedInts upper mid ((upper + mid) / 2)%nat
      else Done (boundary, mid)
  end.

(** Lines 60-65: the binary search for the upper index.  [gas] is the fuel
    given to every run of the innermost loop. *)
Fixpoint search (gas fuel : nat) (sortedInts : list Z) (upper boundary : nat)
  : outcome nat :=
  match fuel with
  | O => OutOfFuel
  | S fuel' =>
      if (upper + 1 <? boundary)%nat
      then
        ' (boundary', mid) <- shrink gas sortedInts upper boundary
                                ((upper + boundary) / 2)%nat ;;
        search gas fuel' sortedInts mid boundary'
      else Done upper
  end.

(** Lines 56-67: the outer loop; the pairs it yields are collected in a list. *)
Fixpoint outer (gas fuel : nat) (sortedInts : list Z) (lower : nat)
  : outcome (list (Z * Z)) :=
  match fuel with
  | O => OutOfFuel
  | S fuel' =>
      if (lower <? length sortedInts)%nat
      then
        upper <- search gas gas sortedInts lower (length sortedInts) ;;
        vlower <- getitem sortedInts lower ;;
        vupper <- getitem sortedInts upper ;;
        rest <- outer gas fuel' sortedInts (upper + 1)%nat ;;
        Done ((vlower, vupper) :: rest)
      else Done []
  end.

Definition ranges_fuel (gas : nat) (intList : list Z) : outcome (list (Z * Z)) :=
  outer gas gas (sorted intList) 0.

(** One unit of fuel more than the list is long is enough for every loop. *)
Definition ranges (intList : list Z) : outcome (list (Z * Z)) :=
  ranges_fuel (S (length intList)) intList.

(** ** Values and their text *)

(** What the code hands to [print]: integers and strings. *)
Inductive pyval : Type :=
| PInt (z : Z)
| PStr (s : string).

Definition nl : string := String "010"%char EmptyString.
Definition dquote : string := String "034"%char EmptyString.

(** ['%d' % z] and [str(z)] *)
Definition str_of_Z (z : Z) : string := NilZero.string_of_int (Z.to_int z).

Fixpoint spaces (n : nat) : string :=
  match n with
  | O => EmptyString
  | S n' => String " "%char (spaces n')
  end.

(** ['%<width>d' % z]: right-justified, never truncated *)
Definition fmt_d (width : nat) (z : Z) : string :=
  let s := str_of_Z z in (spaces (width - String.length s) ++ s)%string.

Definition str (v : pyval) : string :=
  match v with
  | PInt z => str_of_Z z
  | PStr s => s
  end.

(** ** [hmRanges] *)

(** Lines 78-85: what one pair yields. *)
Definition hmPair (p : Z * Z) : list pyval :=
  let '(lower, upper) := p in
  if lower =? upper then [PInt lower]
  else if lower + 1 =? upper then [PInt lower; PInt upper]
  else [PStr (str_of_Z lower ++ " THRU " ++ str_of_Z upper)%string].

Definition hmRanges (intList : list Z) : outcome (list pyval) :=
  pairs <- ranges intList ;;
  Done (flat_map hmPair pairs).

(** ** Files and [print]

    A file is the sequence of [print] calls made on it; its contents are
    the texts of the calls, one after the other. *)

Record print_call : Type := Print {
  p_args : list pyval;
  p_sep : string;
  p_end : string
}.

Definition text_of_call (c : print_call) : string :=
  (String.concat (p_sep c) (map str (p_args c)) ++ p_end c)%string.

Definition contents (file : list print_call) : string :=
  String.concat EmptyString (map text_of_call file).

Record streams : Type := Streams {
  bdf : list print_call;
  stderr : list print_call
}.

Definition print_bdf (c : print_call) (w : streams) : streams :=
  {| bdf := bdf w ++ [c]; stderr := stderr w |}.

Definition print_stderr (c : print_call) (w : streams) : streams :=
  {| bdf := bdf w; stderr := stderr w ++ [c] |}.

(** [print(s, file=...)] with the default separator and end *)
Definition line (s : string) : print_call := Print [PStr s] " " nl.

(** ** Slices, [range], [enumerate] *)

Definition len {A : Type} (l : list A) : Z := Z.of_nat (length l).

(** A slice bound: negative bounds count from the end, and all are clipped
    to the list. *)
Definition bound (n i : Z) : nat :=
  Z.to_nat (Z.min n (if i <? 0 then Z.max 0 (i + n) else i)).

(** [l[i:j]] *)
Definition slice {A : Type} (l : list A) (i j : Z) : list A :=
  firstn (bound (len l) j - bound (len l) i) (skipn (bound (len l) i) l).

(** [l[i:]] *)
Definition slice_from {A : Type} (l : list A) (i : Z) : list A :=
  skipn (bound (len l) i) l.

(** [range(start, stop, step)] for a positive [step] *)
Definition pyrange (start stop step : Z) : list Z :=
  map (fun k => start + Z.of_nat k * step)
      (seq 0 (Z.to_nat ((stop - start + step - 1) / step))).

(** [enumerate(l, start)] *)
Fixpoint enumerate {A : Type} (start : Z) (l : list A) : list (Z * A) :=
  match l with
  | [] => []
  | x :: l' => (start, x) :: enumerate (start + 1) l'
  end.

(** ** [bdfExport] *)

(** The order of Python lists of integers. *)
Fixpoint list_ltb (l1 l2 : list Z) : bool :=
  match l1, l2 with
  | [], [] => false
  | [], _ :: _ => true
  | _ :: _, [] => false
  | x :: l1', y :: l2' => if x =? y then list_ltb l1' l2' else x <? y
  end.

(** The order of the tuples of [setDict.items()]: the names decide, and the
    members are looked at only between equal names. *)
Definition item_ltb (a b : string * list Z) : bool :=
  if String.eqb (fst a) (fst b) then list_ltb (snd a) (snd b)
  else String.ltb (fst a) (fst b).

Definition chunkSize : Z := 8.

(** Lines 114-115: the [for] loop, which leaves the last index in [i]. *)
Fixpoint for_chunks (hmList : list pyval) (indexes : list Z) (i : Z) (w : streams)
  : Z * streams :=
  match indexes with
  | [] => (i, w)
  | i' :: rest =>
      for_chunks hmList rest i'
        (print_bdf (Print (slice hmList i' (i' + chunkSize)) "," ("," ++ nl)) w)
  end.

(** Lines 113-117: the token list, eight to a line. *)
Definition print_chunks (hmList : list pyval) (w : streams) : streams :=
  let '(i, w) :=
    for_chunks hmList (pyrange 0 (len hmList - chunkSize) chunkSize) (- chunkSize) w in
  let i := i + chunkSize in
  print_bdf (Print (slice_from hmList i) "," nl) w.

(** Line 110: [print('SET%5d = '%matId, end='', file=bdf)] *)
Definition set_line (matId : Z) : print_call :=
  Print [PStr ("SET" ++ fmt_d 5 matId ++ " = ")] " " EmptyString.

(** Line 118: [print('$HMSET %8d %8d "%s"'%(matId, setType, matName), file=bdf)] *)
Definition hmset_line (setType matId : Z) (matName : string) : print_call :=
  line ("$HMSET " ++ fmt_d 8 matId ++ " " ++ fmt_d 8 setType ++ " "
        ++ dquote ++ matName ++ dquote).

(** Line 109: [print(matName, len(elems), file=sys.stderr)] *)
Definition notice (matName : string) (elems : list Z) : print_call :=
  Print [PStr matName; PInt (len elems)] " " nl.

(** Lines 109-118: one pass of the loop over the sets. *)
Definition exportSet (setType matId : Z) (matName : string) (elems : list Z)
    (w : streams) : outcome streams :=
  let w := print_stderr (notice matName elems) w in
  let w := print_bdf (set_line matId) w in
  hmList <- hmRanges elems ;;
  let w := print_chunks hmList w in
  Done (print_bdf (hmset_line setType matId matName) w).

Fixpoint exportSets (setType : Z) (numbered : list (Z * (string * list Z)))
    (w : streams) : outcome streams :=
  match numbered with
  | [] => Done w
  | (matId, (matName, elems)) :: rest =>
      w' <- exportSet setType matId matName elems w ;;
      exportSets setType rest w'
  end.

(** A dictionary is the list of its items in iteration order; its keys are
    distinct. *)
Definition bdfExport (setDict : list (string * list Z)) (setType : Z) (w : streams)
  : outcome streams :=
  let w := print_bdf (line "CEND") w in
  w <- exportSets setType (enumerate 1 (sort_by item_ltb setDict)) w ;;
  let w := print_bdf (line "BEGIN BULK") w in
  Done (print_bdf (line "ENDDATA") w).

(** The document written to a fresh file. *)
Definition document (setDict : list (string * list Z)) (setType : Z) : outcome string :=
  w <- bdfExport setDict setType (Streams [] []) ;;
  Done (contents (bdf w)).

(** *** What one set writes *)

(** The [print] calls of lines 114-117 for a token list. *)
Definition chunk_calls (hmList : list pyval) : list print_call :=
  bdf (print_chunks hmList (Streams [] [])).

(** The tokens of a set; [hmRanges] fails on no list
    (lemma [hmRanges_tokens]). *)
Definition hm_tokens (elems : list Z) : list pyval :=
  match hmRanges elems with
  | Done hmList => hmList
  | _ => []
  end.

(** The record of a set: the calls made on the file for it. *)
Definition record_calls (setType : Z) (item : Z * (string * list Z)) : list print_call :=
  let '(matId, (matName, elems)) := item in
  set_line matId :: chunk_calls (hm_tokens elems) ++ [hmset_line setType matId matName].

(** The number of lines of a token list that end with a comma. *)
Definition full_lines (hmList : list pyval) : nat := Z.to_nat ((len hmList - 1) / 8).

(** The order of the names alone. *)
Definition key_ltb (a b : string * list Z) : bool := String.ltb (fst a) (fst b).

(** ** Notions of the specification *)

(** [z] lies in the closed interval of one of the pairs. *)
Definition covers (pairs : list (Z * Z)) (z : Z) : Prop :=
  exists p, In p pairs /\ fst p <= z <= snd p.

(** [q] starts after [p] ends and is not adjacent to it: the two could not
    be merged. *)
Definition apart (p q : Z * Z) : Prop := snd p + 1 < fst q.

(** [[a, b]] is a maximal contiguous run of the values of [l]. *)
Definition is_run (l : list Z) (a b : Z) : Prop :=
  a <= b /\ (forall z, a <= z <= b -> In z l) /\ ~ In (a - 1) l /\ ~ In (b + 1) l.

Definition dedup (l : list Z) : list Z := nodup Z.eq_dec l.

(** A run starts at each value whose predecessor is not a value of [l]. *)
Definition run_start (l : list Z) (x : Z) : bool := negb (existsb (Z.eqb (x - 1)) l).

Definition num_runs (l : list Z) : nat := length (filter (run_start l) (dedup l)).

(** The runs of an ascending list by a linear scan, the reference that the
    binary search is compared with. *)
Fixpoint runs_aux (lo cur : Z) (l : list Z) : list (Z * Z) :=
  match l with
  | [] => [(lo, cur)]
  | x :: l' => if x =? cur + 1 then runs_aux lo x l' else (lo, cur) :: runs_aux x x l'
  end.

Definition runs (l : list Z) : list (Z * Z) :=
  match l with
  | [] => []
  | x :: l' => runs_aux x x l'
  end.

(** *** Reading tokens back *)

(** The text before the first space, and the rest from that space on. *)
Fixpoint until_space (s : string) : string * string :=
  match s with
  | EmptyString => (EmptyString, EmptyString)
  | String c s' =>
      if Ascii.eqb c " " then (EmptyString, s)
      else let '(a, r) := until_space s' in (String c a, r)
  end.

Fixpoint strip_prefix (p s : string) : option string :=
  match p, s with
  | EmptyString, _ => Some s
  | String _ _, EmptyString => None
  | String c p', String d s' => if Ascii.eqb c d then strip_prefix p' s' else None
  end.

Definition Z_of_str (s : string) : option Z :=
  option_map Z.of_int (NilZero.int_of_string s).

(** All integers from [l] to [u] inclusive. *)
Definition zrange (l u : Z) : list Z :=
  map (fun k => l + Z.of_nat k) (seq 0 (Z.to_nat (u - l + 1))).

Definition expand_token (v : pyval) : option (list Z) :=
  match v with
  | PInt z => Some [z]
  | PStr s =>
      let '(a, r) := until_space s in
      match strip_prefix " THRU " r with
      | Some b =>
          match Z_of_str a, Z_of_str b with
          | Some l, Some u => Some (zrange l u)
          | _, _ => None
          end
      | None => None
      end
  end.

Fixpoint expand (tokens : list pyval) : option (list Z) :=
  match tokens with
  | [] => Some []
  | v :: rest =>
      match expand_token v, expand rest with
      | Some a, Some b => Some (a ++ b)
      | _, _ => None
      end
  end.

(** *** Indexes of the sorted list *)

Definition val (s : list Z) (i : nat) : Z := nth i s 0.

(** The gap between the values at [i] and [j] is larger than the gap
    between the indexes: some integer between them is missing. *)
Definition jump (s : list Z) (i j : nat) : Prop :=
  val s j - val s i > Z.of_nat j - Z.of_nat i.

(** The values from index [i] to index [j] are consecutive integers. *)
Definition contiguous (s : list Z) (i j : nat) : Prop :=
  val s j - val s i = Z.of_nat j - Z.of_nat i.

(** *** Characters of a text *)

Fixpoint count_char (c : ascii) (s : string) : nat :=
  match s with
  | EmptyString => O
  | String d s' => if Ascii.eqb c d then S (count_char c s') else count_char c s'
  end.

(** [c] is neither a decimal digit nor the minus sign. *)
Definition no_digit (c : ascii) : bool :=
  negb (existsb (Ascii.eqb c)
          ["0"; "1"; "2"; "3"; "4"; "5"; "6"; "7"; "8"; "9"; "-"]%char).

(** The number of physical lines of a text that ends each line with a line
    break. *)
Definition physical_lines (s : string) : nat := count_char "010" s.

(** [ceil(k / d)] *)
Definition ceil_div (k d : Z) : Z := (k + d - 1) / d.

(** The physical lines of the record of a set with [k] tokens: the
    'SET' line with its continuation lines, and the '$HMSET' line. *)
Definition record_lines (k : nat) : nat :=
  (Z.to_nat (Z.max 1 (ceil_div (Z.of_nat k) 8)) + 1)%nat.


(** ** [fromOdb]

    What the code reads of an Abaqus output database: the instances of the
    root assembly in the order of [instances.values()], each with its name
    and its section assignments; for a section assignment the name of its
    section and the labels of the elements of its region; and the sections
    by name.  A section has a material, or none: [None] stands for a section
    without the attribute [material] and for one whose material is [None]. *)

Record odb_section : Type := Section_ {
  material : option string
}.

Record odb_assignment : Type := Assignment {
  sectionName : string;
  elements : list Z
}.

Record odb_instance : Type := Instance {
  name : string;
  sectionAssignments : list odb_assignment
}.

Record Odb : Type := OdbData {
  instances : list odb_instance;
  sections : list (string * odb_section)
}.

(** *** Dictionaries

    A dictionary is the list of its items in insertion order. *)

(** [d[k]], when [k] is a key of [d] *)
Fixpoint lookup {V : Type} (k : string) (d : list (string * V)) : option V :=
  match d with
  | [] => None
  | (k', v) :: d' => if String.eqb k' k then Some v else lookup k d'
  end.

(** The value of [k] becomes [f] of what it was; a new key comes last. *)
Fixpoint upsert {V : Type} (k : string) (f : option V -> V) (d : list (string * V))
  : list (string * V) :=
  match d with
  | [] => [(k, f None)]
  | (k', v) :: d' =>
      if String.eqb k' k then (k', f (Some v)) :: d' else (k', v) :: upsert k f d'
  end.

(** [materialSets.setdefault(m, []).extend(labels)] *)
Definition setdefault_extend (m : string) (labels : list Z)
    (materialSets : list (string * list Z)) : list (string * list Z) :=
  upsert m (fun old => match old with Some v => v | None => [] end ++ labels) materialSets.

(** *** Results

    Besides what [bdfExport] can end with, a run of [fromOdb] can end with
    the [KeyError] of [odb.sections[...]]. *)

Inductive result (A : Type) : Type :=
| Returned (a : A)
| KeyError (key : string)
| Escaped (e : outcome Empty_set).

Arguments Returned {A} a.
Arguments KeyError {A} key.
Arguments Escaped {A} e.

Definition result_bind {A B : Type} (c : result A) (k : A -> result B) : result B :=
  match c with
  | Returned a => k a
  | KeyError key => KeyError key
  | Escaped e => Escaped e
  end.

Definition of_outcome {A : Type} (o : outcome A) : result A :=
  match o with
  | Done a => Returned a
  | IndexError => Escaped IndexError
  | OutOfFuel => Escaped OutOfFuel
  end.

(** The files on disk by name, and what was printed on [sys.stderr]. *)
Record world : Type := World {
  files : list (string * list print_call);
  sys_stderr : list print_call
}.

Definition note (c : print_call) (w : world) : world :=
  {| files := files w; sys_stderr := sys_stderr w ++ [c] |}.

(** Lines 144-149: the loop over the section assignments of an instance. *)
Fixpoint collect (odb : Odb) (assignments : list odb_assignment)
    (materialSets : list (string * list Z)) : result (list (string * list Z)) :=
  match assignments with
  | [] => Returned materialSets
  | sectionAssignment :: rest =>
      match lookup (sectionName sectionAssignment) (sections odb) with
      | None => KeyError (sectionName sectionAssignment)
      | Some section =>
          match material section with
          | None => collect odb rest materialSets
          | Some m =>
              if String.eqb m EmptyString then collect odb rest materialSets
              else collect odb rest
                     (setdefault_extend m (elements sectionAssignment) materialSets)
          end
      end
  end.

Section FromOdb.
(** ['%r' % s] for a string, [os.path.splitext(p)[0]] and [openOdb] are not
    code of this program.  [openOdb] and [open(fname, 'w')] can fail for
    reasons outside the program (no such database, no such directory); a
    run in which they fail is not described here: [Returned] is the
    outcome of a run in which the database and every file could be
    opened, and the other outcomes are the exceptions that the code of
    the program itself raises. *)
Variable repr : string -> string.
Variable splitext0 : string -> string.
Variable openOdb : string -> Odb.

(** Lines 151-152 *)
Definition fname (odbName : string) (instance_name : string) : string :=
  (splitext0 odbName ++ "_material_" ++ instance_name ++ ".bdf")%string.

(** Lines 142-156: an instance that is not skipped. *)
Definition reportInstance (odb : Odb) (odbName : string) (instance : odb_instance)
    (w : world) : result world :=
  let w := note (Print [PStr "Reporting material groups from"; PStr (name instance)]
                       " " nl) w in
  result_bind (collect odb (sectionAssignments instance) []) (fun materialSets =>
  match materialSets with
  | _ :: _ =>
      result_bind (of_outcome (bdfExport materialSets 2 (Streams [] (sys_stderr w))))
        (fun written =>
           Returned {| files := upsert (fname odbName (name instance))
                                       (fun _ => bdf written) (files w);
                       sys_stderr := stderr written |})
  | [] => Returned (note (line "-No materials-") w)
  end).

(** Line 139: [instanceName and instance.name != instanceName] *)
Definition skipped (instanceName : string) (instance : odb_instance) : bool :=
  negb (String.eqb instanceName EmptyString)
  && negb (String.eqb (name instance) instanceName).

(** Lines 138-156: the loop over the instances. *)
Fixpoint forInstances (odb : Odb) (odbName instanceName : string)
    (todo : list odb_instance) (w : world) : result world :=
  match todo with
  | [] => Returned w
  | instance :: rest =>
      if skipped instanceName instance
      then forInstances odb odbName instanceName rest
             (note (line ("Skipping " ++ repr (name instance) ++ " != "
                          ++ repr instanceName)) w)
      else result_bind (reportInstance odb odbName instance w)
             (forInstances odb odbName instanceName rest)
  end.

Definition fromOdb (odbName instanceName : string) (w : world) : result world :=
  let odb := openOdb odbName in
  forInstances odb odbName instanceName (instances odb) w.
End FromOdb.

(** The material that a section assignment gives to its elements, if any. *)
Definition material_of (odb : Odb) (sectionAssignment : odb_assignment) : option string :=
  match lookup (sectionName sectionAssignment) (sections odb) with
  | Some section =>
      match material section with
      | Some m => if String.eqb m EmptyString then None else Some m
      | None => None
      end
  | None => None
  end.

Definition assigns (odb : Odb) (m : string) (sectionAssignment : odb_assignment) : bool :=
  match material_of odb sectionAssignment with
  | Some m' => String.eqb m' m
  | None => false
  end.

(** The section of the assignment is one of [odb.sections]. *)
Definition defined (odb : Odb) (sectionAssignment : odb_assignment) : Prop :=
  lookup (sectionName sectionAssignment) (sections odb) <> None.

(** The calls with which [bdfExport] fills a new file for the element sets
    [d]. *)
Definition document_calls (d : list (string * list Z)) : list print_call :=
  line "CEND" :: flat_map (record_calls 2) (enumerate 1 (sort_by item_ltb d))
    ++ [line "BEGIN BULK"; line "ENDDATA"].

(** A database with two instances: three sections with a material, two of
    them the same, and one section without. *)
Definition example_odb : Odb :=
  {| instances :=
       [ Instance "PART-1-1"
           [Assignment "Section-1" [1; 2; 3]; Assignment "Section-4" [9];
            Assignment "Section-3" [4]; Assignment "Section-2" [7]];
         Instance "PART-2-1" [Assignment "Section-2" [5; 6]] ];
     sections :=
       [ ("Section-1", Section_ (Some "STEEL")); ("Section-2", Section_ (Some "ALU"));
         ("Section-3", Section_ (Some "STEEL")); ("Section-4", Section_ None) ]%string |}.

(** * Proofs *)

(** ** Sorting *)

Section SortFacts.
Context {A : Type} (ltb : A -> A -> bool).

(** [x] does not come after [y]. *)
Definition not_after (x y : A) : Prop := ltb y x = false.

Hypothesis ltb_asym : forall x y, ltb x y = true -> ltb y x = false.
Hypothesis not_after_trans :
  forall x y z, not_after x y -> not_after y z -> not_after x z.

Lemma insert_perm (x : A) (l : list A) : Permutation (insert ltb x l) (x :: l).
Proof.
  induction l as [|y l IH]; simpl.
  - apply Permutation_refl.
  - destruct (ltb y x).
    + eapply perm_trans; [apply perm_skip, IH | apply perm_swap].
    + apply Permutation_refl.
Qed.

Lemma sort_by_perm (l : list A) : Permutation (sort_by ltb l) l.
Proof.
  induction l as [|x l IH]; simpl.
  - constructor.
  - eapply perm_trans; [apply insert_perm | apply perm_skip, IH].
Qed.

Lemma insert_sorted (x : A) (l : list A) :
  StronglySorted not_after l -> StronglySorted not_after (insert ltb x l).
Proof.
  induction 1 as [|y l Hs IH Hy]; simpl.
  - repeat constructor.
  - destruct (ltb y x) eqn:E.
    + constructor; [exact IH|].
      rewrite Forall_forall in *. intros z Hz.
      apply (Permutation_in _ (insert_perm x l)) in Hz.
      destruct Hz as [<-|Hz]; [apply ltb_asym, E | auto].
    + constructor; [constructor; assumption|].
      constructor; [exact E|].
      rewrite Forall_forall in *. intros z Hz.
      apply not_after_trans with y; [exact E | auto].
Qed.

Lemma sort_by_sorted (l : list A) : StronglySorted not_after (sort_by ltb l).
Proof.
  induction l; simpl; [constructor | apply insert_sorted; assumption].
Qed.
End SortFacts.

Lemma StronglySorted_impl {A : Type} (R R' : A -> A -> Prop) (l : list A) :
  (forall x y, In x l -> In y l -> R x y -> R' x y) ->
  StronglySorted R l -> StronglySorted R' l.
Proof.
  intros HR Hs. induction Hs as [|a l Hs IH Ha].
  - constructor.
  - constructor.
    + apply IH. intros x y Hx Hy. apply HR; now right.
    + rewrite Forall_forall in *. intros y Hy.
      apply HR; [now left | now right | auto].
Qed.

Lemma StronglySorted_nth {A : Type} (R : A -> A -> Prop) (d : A) (l : list A) :
  StronglySorted R l ->
  forall i j, (i < j)%nat -> (j < length l)%nat -> R (nth i l d) (nth j l d).
Proof.
  induction 1 as [|a l Hs IH Ha]; intros i j Hij Hj; simpl in Hj.
  - lia.
  - destruct j as [|j]; [lia|]. destruct i as [|i]; simpl.
    + rewrite Forall_forall in Ha. apply Ha, nth_In. lia.
    + apply IH; lia.
Qed.

Lemma sorted_perm (l : list Z) : Permutation (sorted l) l.
Proof. apply sort_by_perm. Qed.

Lemma sorted_length (l : list Z) : length (sorted l) = length l.
Proof. apply Permutation_length, sorted_perm. Qed.

Lemma sorted_ascending (l : list Z) : StronglySorted Z.le (sorted l).
Proof.
  apply StronglySorted_impl with (R := not_after Z.ltb).
  - unfold not_after. intros x y _ _ H. lia.
  - apply sort_by_sorted; unfold not_after; intros; lia.
Qed.

Lemma ascending_NoDup_strict (l : list Z) :
  StronglySorted Z.le l -> NoDup l -> StronglySorted Z.lt l.
Proof.
  induction 1 as [|a l Hs IH Ha]; intros Hnd.
  - constructor.
  - inversion Hnd as [|? ? Hnotin Hnd']; subst.
    constructor; [auto|].
    rewrite Forall_forall in *. intros y Hy.
    assert (a <> y) by (intros ->; contradiction).
    specialize (Ha y Hy). lia.
Qed.

Lemma sorted_strict (l : list Z) : NoDup l -> StronglySorted Z.lt (sorted l).
Proof.
  intros Hnd. apply ascending_NoDup_strict.
  - apply sorted_ascending.
  - eapply Permutation_NoDup; [apply Permutation_sym, sorted_perm | exact Hnd].
Qed.

(** ** The loops of [ranges] *)

Lemma getitem_lt (s : list Z) (i : nat) :
  (i < length s)%nat -> getitem s i = Done (val s i).
Proof.
  intros Hi. unfold getitem, val.
  rewrite (nth_error_nth' s 0 Hi). reflexivity.
Qed.

Lemma val_lt (s : list Z) (i j : nat) :
  StronglySorted Z.lt s -> (i < j)%nat -> (j < length s)%nat -> val s i < val s j.
Proof. intros Hs Hij Hj. unfold val. apply StronglySorted_nth; assumption. Qed.

Lemma val_le (s : list Z) (i j : nat) :
  StronglySorted Z.le s -> (i <= j)%nat -> (j < length s)%nat -> val s i <= val s j.
Proof.
  intros Hs Hij Hj. destruct (Nat.eq_dec i j) as [->|Hne]; [lia|].
  unfold val. apply StronglySorted_nth; trivial; lia.
Qed.

(** In a strictly ascending list the values are at least as far apart as
    their indexes. *)
Lemma val_gap (s : list Z) (i : nat) :
  StronglySorted Z.lt s ->
  forall k, (i + k < length s)%nat -> val s (i + k) - val s i >= Z.of_nat k.
Proof.
  intros Hs. induction k as [|k IH]; intros Hk.
  - rewrite Nat.add_0_r. lia.
  - assert (val s (i + k) < val s (i + S k)) by (apply val_lt; trivial; lia).
    specialize (IH ltac:(lia)). lia.
Qed.

Lemma not_jump_contiguous (s : list Z) (i j : nat) :
  StronglySorted Z.lt s -> (i <= j)%nat -> (j < length s)%nat ->
  ~ jump s i j -> contiguous s i j.
Proof.
  intros Hs Hij Hj Hnj. unfold jump, contiguous in *.
  pose proof (val_gap s i Hs (j - i)%nat) as Hg.
  replace (i + (j - i))%nat with j in Hg by lia.
  specialize (Hg Hj). lia.
Qed.

Lemma skipn_val (s : list Z) (i : nat) :
  (i < length s)%nat -> skipn i s = val s i :: skipn (S i) s.
Proof.
  revert i. induction s as [|a s IH]; intros i Hi; simpl in Hi; [lia|].
  destruct i as [|i]; [reflexivity|].
  change (skipn i s = val s i :: skipn (S i) s). apply IH. lia.
Qed.

(** The linear scan, started inside a run that ends at index [u], yields
    that run and goes on after it. *)
Lemma runs_aux_to_end (s : list Z) (lo : Z) :
  StronglySorted Z.lt s ->
  forall d k u,
    u = (k + d)%nat -> (u < length s)%nat -> contiguous s k u ->
    (S u = length s \/ val s (S u) <> val s u + 1) ->
    runs_aux lo (val s k) (skipn (S k) s) = (lo, val s u) :: runs (skipn (S u) s).
Proof.
  intros Hs. induction d as [|d IH]; intros k u -> Hu Hc Hend.
  - rewrite Nat.add_0_r in *. destruct Hend as [Hend|Hend].
    + rewrite skipn_all2 by lia. reflexivity.
    + destruct (Nat.eq_dec (S k) (length s)) as [E|E].
      * rewrite skipn_all2 by lia. reflexivity.
      * rewrite (skipn_val s (S k)) by lia. cbn [runs_aux runs].
        destruct (val s (S k) =? val s k + 1) eqn:T; [lia | reflexivity].
  - rewrite (skipn_val s (S k)) by lia. cbn [runs_aux].
    assert (Hk : val s (S k) = val s k + 1).
    { unfold contiguous in Hc.
      pose proof (val_gap s (S k) Hs d) as H1.
      replace (S k + d)%nat with (k + S d)%nat in H1 by lia.
      specialize (H1 Hu).
      assert (val s k < val s (S k)) by (apply val_lt; trivial; lia).
      lia. }
    rewrite Hk, Z.eqb_refl. rewrite <- Hk.
    apply (IH (S k)); trivial; [lia|].
    unfold contiguous in *. lia.
Qed.

Lemma runs_skipn (s : list Z) (lower u : nat) :
  StronglySorted Z.lt s ->
  (lower <= u)%nat -> (u < length s)%nat -> contiguous s lower u ->
  ((u + 1)%nat = length s \/ jump s lower (u + 1)) ->
  runs (skipn lower s) = (val s lower, val s u) :: runs (skipn (u + 1) s).
Proof.
  intros Hs Hlu Hu Hc Hend.
  rewrite (skipn_val s lower) by lia. cbn [runs].
  replace (u + 1)%nat with (S u) in * by lia.
  apply runs_aux_to_end with (d := (u - lower)%nat); trivial; [lia|].
  destruct Hend as [Hend|Hend]; [now left | right].
  unfold jump, contiguous in *. lia.
Qed.

Section Loops.
Variable s : list Z.

(** The innermost loop returns, with the boundary no higher than before
    and [mid] between [upper] and the boundary.  Either nothing moved, or
    the boundary came down to an index where the test failed. *)
Lemma shrink_spec :
  forall fuel upper boundary mid,
    (upper <= mid < boundary)%nat -> (boundary <= length s)%nat ->
    (mid - upper < fuel)%nat ->
    exists boundary' mid',
      shrink fuel s upper boundary mid = Done (boundary', mid')
      /\ (upper <= mid' < boundary')%nat /\ (boundary' <= boundary)%nat
      /\ (boundary' = boundary /\ mid' = mid
          \/ (boundary' < boundary)%nat /\ jump s upper boundary')
      /\ ~ jump s upper mid'.
Proof.
  unfold jump.
  induction fuel as [|fuel IH]; intros upper boundary mid Hm Hb Hf; [lia|].
  cbn [shrink]. rewrite !getitem_lt by lia. cbn [bind].
  destruct (val s mid - val s upper >? Z.of_nat mid - Z.of_nat upper) eqn:E.
  - assert (Hgt : val s mid - val s upper > Z.of_nat mid - Z.of_nat upper) by lia.
    assert (upper <> mid) by (intros ->; lia).
    destruct (IH upper mid ((upper + mid) / 2)%nat)
      as (b' & m' & Hrun & Hm' & Hb' & Hcase & Hle); [lia | lia | lia |].
    exists b', m'. rewrite Hrun. repeat split; try lia.
    right. destruct Hcase as [[-> _]|[Hlt Hj]]; split; trivial; lia.
  - exists boundary, mid. repeat split; lia.
Qed.

Variable gas : nat.
Hypothesis gas_enough : (length s <= gas)%nat.

(** The binary search returns an index between [upper] and the boundary.
    On a strictly ascending list it is the last index of the run of
    consecutive integers that starts at [lower]. *)
Lemma search_spec (lower : nat) :
  forall fuel upper boundary,
    (lower <= upper < boundary)%nat -> (boundary <= length s)%nat ->
    (boundary - upper <= fuel)%nat ->
    exists upper',
      search gas fuel s upper boundary = Done upper'
      /\ (upper <= upper' < boundary)%nat
      /\ (StronglySorted Z.lt s ->
          contiguous s lower upper ->
          (boundary = length s \/ jump s lower boundary) ->
          contiguous s lower upper'
          /\ ((upper' + 1)%nat = length s \/ jump s lower (upper' + 1))).
Proof.
  unfold jump, contiguous.
  induction fuel as [|fuel IH]; intros upper boundary Hu Hb Hf; [lia|].
  cbn [search]. destruct (upper + 1 <? boundary)%nat eqn:E.
  - apply Nat.ltb_lt in E.
    destruct (shrink_spec gas upper boundary ((upper + boundary) / 2)%nat)
      as (b' & m' & Hrun & Hm' & Hb' & Hcase & Hle); [lia | lia | lia |].
    rewrite Hrun. cbn [bind].
    destruct (IH m' b') as (u' & Hsearch & Hu' & Hstrict); [lia | lia | |].
    { destruct Hcase as [[-> ->]|[Hlt _]]; lia. }
    exists u'. rewrite Hsearch. split; [reflexivity|]. split; [lia|].
    intros Hs Hc Hbd. apply Hstrict; trivial.
    + assert (contiguous s upper m') as Hc'
        by (apply not_jump_contiguous; trivial; lia).
      unfold contiguous in Hc'. lia.
    + destruct Hcase as [[-> ->]|[Hlt Hj]]; [assumption|].
      right. unfold jump in Hj. lia.
  - apply Nat.ltb_ge in E. exists upper.
    split; [reflexivity|]. split; [lia|].
    intros _ Hc Hbd. split; [exact Hc|].
    replace (upper + 1)%nat with boundary by lia. exact Hbd.
Qed.

(** The outer loop returns.  Its pairs are the values at the two ends of
    consecutive blocks of indexes that leave no index out, and on a
    strictly ascending list they are the runs of the linear scan. *)
Lemma outer_spec :
  forall fuel lower,
    (lower <= length s)%nat -> (length s - lower < fuel)%nat ->
    exists out,
      outer gas fuel s lower = Done out
      /\ (forall p, In p out ->
            exists i j, (lower <= i <= j)%nat /\ (j < length s)%nat
                        /\ p = (val s i, val s j))
      /\ (forall k, (lower <= k < length s)%nat ->
            exists i j, (i <= k <= j)%nat /\ (j < length s)%nat
                        /\ In (val s i, val s j) out)
      /\ (StronglySorted Z.lt s -> out = runs (skipn lower s)).
Proof.
  induction fuel as [|fuel IH]; intros lower Hl Hf; [lia|].
  cbn [outer]. destruct (lower <? length s)%nat eqn:E.
  - apply Nat.ltb_lt in E.
    destruct (search_spec lower gas lower (length s))
      as (u & Hsearch & Hu & Hstrict); [lia | lia | lia |].
    rewrite Hsearch. cbn [bind]. rewrite !getitem_lt by lia. cbn [bind].
    destruct (IH (u + 1)%nat) as (rest & Hrest & G1 & G2 & G3); [lia | lia |].
    rewrite Hrest. cbn [bind].
    exists ((val s lower, val s u) :: rest).
    split; [reflexivity|]. split; [|split].
    + intros p [<-|Hp].
      * exists lower, u. repeat split; lia.
      * destruct (G1 p Hp) as (i & j & Hij & Hj & ->).
        exists i, j. repeat split; lia.
    + intros k Hk. destruct (Nat.le_gt_cases k u) as [Hku|Hku].
      * exists lower, u. repeat split; try lia. now left.
      * destruct (G2 k) as (i & j & Hij & Hj & Hin); [lia|].
        exists i, j. repeat split; try lia. now right.
    + intros Hs. rewrite (G3 Hs).
      destruct Hstrict as [Hc Hend]; trivial.
      * unfold contiguous. lia.
      * now left.
      * symmetry. apply runs_skipn; trivial; lia.
  - apply Nat.ltb_ge in E. exists [].
    split; [reflexivity|]. split; [|split].
    + intros p [].
    + intros k Hk. lia.
    + intros _. rewrite skipn_all2 by lia. reflexivity.
Qed.
End Loops.

(** ** The runs of a strictly ascending list *)

Lemma covers_cons (p : Z * Z) (pairs : list (Z * Z)) (z : Z) :
  covers (p :: pairs) z <-> fst p <= z <= snd p \/ covers pairs z.
Proof.
  unfold covers. split.
  - intros (q & [<-|Hq] & Hz); [now left | right; eauto].
  - intros [Hz|(q & Hq & Hz)]; [exists p | exists q]; simpl; auto.
Qed.

Lemma runs_aux_covers (l : list Z) :
  forall lo cur,
    StronglySorted Z.lt (cur :: l) -> lo <= cur ->
    forall z, covers (runs_aux lo cur l) z <-> lo <= z <= cur \/ In z l.
Proof.
  induction l as [|x l IH]; intros lo cur Hs Hlo z; cbn [runs_aux].
  - rewrite covers_cons. unfold covers. simpl. firstorder.
  - apply StronglySorted_inv in Hs. destruct Hs as [Hs Hcur].
    assert (cur < x) by (inversion Hcur; assumption).
    destruct (x =? cur + 1) eqn:E.
    + apply Z.eqb_eq in E.
      rewrite IH by (trivial; lia). simpl. intuition lia.
    + rewrite covers_cons, IH by (trivial; lia). simpl. intuition lia.
Qed.

Lemma runs_aux_apart (l : list Z) :
  forall lo cur,
    StronglySorted Z.lt (cur :: l) -> lo <= cur ->
    StronglySorted apart (runs_aux lo cur l)
    /\ Forall (fun p => lo <= fst p <= snd p) (runs_aux lo cur l).
Proof.
  induction l as [|x l IH]; intros lo cur Hs Hlo; cbn [runs_aux].
  - split; repeat constructor; simpl; lia.
  - apply StronglySorted_inv in Hs. destruct Hs as [Hs Hcur].
    assert (cur < x) by (inversion Hcur; assumption).
    destruct (x =? cur + 1) eqn:E.
    + apply IH; trivial; lia.
    + apply Z.eqb_neq in E.
      destruct (IH x x Hs ltac:(lia)) as [Ha Hb]. split.
      * constructor; [exact Ha|].
        eapply Forall_impl; [|exact Hb].
        intros p Hp. unfold apart. simpl in *. lia.
      * constructor; [simpl; lia|].
        eapply Forall_impl; [|exact Hb].
        intros p Hp. simpl in *. lia.
Qed.

Lemma runs_covers (l : list Z) (z : Z) :
  StronglySorted Z.lt l -> covers (runs l) z <-> In z l.
Proof.
  intros Hs. destruct l as [|x l]; cbn [runs].
  - unfold covers. simpl. firstorder.
  - rewrite runs_aux_covers by (trivial; lia). simpl. intuition lia.
Qed.

Lemma runs_apart (l : list Z) :
  StronglySorted Z.lt l ->
  StronglySorted apart (runs l) /\ Forall (fun p => fst p <= snd p) (runs l).
Proof.
  intros Hs. destruct l as [|x l]; cbn [runs].
  - split; constructor.
  - destruct (runs_aux_apart l x x Hs ltac:(lia)) as [Ha Hb].
    split; [exact Ha|]. eapply Forall_impl; [|exact Hb]. simpl. lia.
Qed.

Lemma apart_pairwise (out : list (Z * Z)) :
  StronglySorted apart out ->
  forall p q, In p out -> In q out -> p = q \/ apart p q \/ apart q p.
Proof.
  induction 1 as [|a rest Hs IH Ha]; intros p q Hp Hq; [destruct Hp|].
  rewrite Forall_forall in Ha.
  destruct Hp as [<-|Hp], Hq as [<-|Hq]; auto.
Qed.

Lemma apart_NoDup (out : list (Z * Z)) :
  StronglySorted apart out -> Forall (fun p => fst p <= snd p) out -> NoDup out.
Proof.
  induction 1 as [|a rest Hs IH Ha]; intros Hord; constructor.
  - intros Hin. rewrite Forall_forall in Ha. specialize (Ha a Hin).
    inversion Hord as [|? ? Hle _]; subst.
    unfold apart in Ha. lia.
  - apply IH. inversion Hord; assumption.
Qed.

(** What follows from exact coverage and separation alone. *)
Section Canonical.
Variables (l : list Z) (out : list (Z * Z)).
Hypothesis out_covers : forall z, covers out z <-> In z l.
Hypothesis out_apart : StronglySorted apart out.
Hypothesis out_ordered : Forall (fun p => fst p <= snd p) out.

Lemma out_is_run (a b : Z) : In (a, b) out -> is_run l a b.
Proof.
  intros Hin. rewrite Forall_forall in out_ordered.
  pose proof (out_ordered _ Hin) as Hab. simpl in Hab.
  assert (Hother : forall z, In z l -> a <= z <= b \/ z + 1 < a \/ b + 1 < z).
  { intros z Hz. apply out_covers in Hz. destruct Hz as (q & Hq & Hz).
    pose proof (out_ordered _ Hq) as Hq'.
    destruct (apart_pairwise out out_apart (a, b) q Hin Hq) as [<-|[Hap|Hap]];
      unfold apart in *; simpl in *; lia. }
  repeat split; trivial.
  - intros z Hz. apply out_covers. exists (a, b). auto.
  - intros Hz. apply Hother in Hz. lia.
  - intros Hz. apply Hother in Hz. lia.
Qed.

Lemma is_run_out (a b : Z) : is_run l a b -> In (a, b) out.
Proof.
  intros (Hab & Hall & Hlo & Hhi).
  assert (Ha : In a l) by (apply Hall; lia).
  apply out_covers in Ha. destruct Ha as ([a' b'] & Hin & Ha). simpl in Ha.
  destruct (out_is_run a' b' Hin) as (Hab' & Hall' & Hlo' & Hhi').
  assert (a' = a).
  { destruct (Z.eq_dec a' a); trivial.
    exfalso. apply Hlo, Hall'. lia. }
  assert (b' = b).
  { destruct (Z_dec b' b) as [[Hlt|Hgt]|]; trivial; exfalso.
    - apply Hhi', Hall. lia.
    - apply Hhi, Hall'. lia. }
  subst. exact Hin.
Qed.


Lemma run_start_iff (x : Z) : run_start l x = true <-> ~ In (x - 1) l.
Proof.
  unfold run_start. rewrite negb_true_iff, <- not_true_iff_false, existsb_exists.
  split; intros H.
  - intros Hin. apply H. exists (x - 1). split; [exact Hin | apply Z.eqb_refl].
  - intros (y & Hy & E). apply Z.eqb_eq in E. subst y. contradiction.
Qed.

Lemma out_lowers (a : Z) :
  In a (map fst out) <-> In a (filter (run_start l) (dedup l)).
Proof.
  rewrite filter_In, run_start_iff. unfold dedup. rewrite nodup_In, in_map_iff.
  split.
  - intros ([a' b] & <- & Hin). simpl.
    destruct (out_is_run a' b Hin) as (Hab & Hall & Hlo & _).
    split; [apply Hall; lia | exact Hlo].
  - intros [Ha Hlo]. apply out_covers in Ha.
    destruct Ha as ([a' b'] & Hin & Ha). simpl in Ha.
    destruct (out_is_run a' b' Hin) as (_ & Hall' & _ & _).
    exists (a', b'). split; [simpl|exact Hin].
    destruct (Z.eq_dec a' a); trivial.
    exfalso. apply Hlo, Hall'. lia.
Qed.

Lemma out_length : length out = num_runs l.
Proof.
  unfold num_runs. rewrite <- (length_map fst out).
  apply Permutation_length, NoDup_Permutation.
  - apply NoDup_map_NoDup_ForallPairs; [|apply apart_NoDup; assumption].
    intros p q Hp Hq E.
    rewrite Forall_forall in out_ordered.
    pose proof (out_ordered _ Hp). pose proof (out_ordered _ Hq).
    destruct (apart_pairwise out out_apart p q Hp Hq) as [|[Hap|Hap]];
      trivial; unfold apart in Hap; lia.
  - apply NoDup_filter, NoDup_nodup.
  - apply out_lowers.
Qed.
End Canonical.

(** ** More fuel changes no result *)

Lemma shrink_more_fuel (s : list Z) :
  forall fuel fuel' upper boundary mid r,
    (fuel <= fuel')%nat ->
    shrink fuel s upper boundary mid = Done r ->
    shrink fuel' s upper boundary mid = Done r.
Proof.
  induction fuel as [|fuel IH]; intros fuel' upper boundary mid r Hle Hrun;
    [discriminate|].
  destruct fuel' as [|fuel']; [lia|].
  cbn [shrink] in *.
  destruct (getitem s mid) as [vmid| |]; try discriminate.
  destruct (getitem s upper) as [vupper| |]; try discriminate.
  cbn [bind] in *.
  destruct (vmid - vupper >? Z.of_nat mid - Z.of_nat upper); [|exact Hrun].
  apply IH with (fuel' := fuel') in Hrun; [exact Hrun | lia].
Qed.

Lemma search_more_fuel (s : list Z) (gas gas' : nat) :
  (gas <= gas')%nat ->
  forall fuel fuel' upper boundary r,
    (fuel <= fuel')%nat ->
    search gas fuel s upper boundary = Done r ->
    search gas' fuel' s upper boundary = Done r.
Proof.
  intros Hgas.
  induction fuel as [|fuel IH]; intros fuel' upper boundary r Hle Hrun;
    [discriminate|].
  destruct fuel' as [|fuel']; [lia|].
  cbn [search] in *.
  destruct (upper + 1 <? boundary)%nat; [|exact Hrun].
  destruct (shrink gas s upper boundary ((upper + boundary) / 2)%nat)
    as [[b' m']| |] eqn:E; try discriminate.
  rewrite (shrink_more_fuel s gas gas' _ _ _ _ Hgas E).
  cbn [bind] in *. apply IH; [lia | exact Hrun].
Qed.

Lemma outer_more_fuel (s : list Z) (gas gas' : nat) :
  (gas <= gas')%nat ->
  forall fuel fuel' lower r,
    (fuel <= fuel')%nat ->
    outer gas fuel s lower = Done r ->
    outer gas' fuel' s lower = Done r.
Proof.
  intros Hgas.
  induction fuel as [|fuel IH]; intros fuel' lower r Hle Hrun; [discriminate|].
  destruct fuel' as [|fuel']; [lia|].
  cbn [outer] in *.
  destruct (lower <? length s)%nat; [|exact Hrun].
  destruct (search gas gas s lower (length s)) as [upper| |] eqn:E;
    try discriminate.
  rewrite (search_more_fuel s gas gas' Hgas gas gas' _ _ _ Hgas E).
  cbn [bind] in *.
  destruct (getitem s lower) as [vlower| |]; try discriminate.
  destruct (getitem s upper) as [vupper| |]; try discriminate.
  cbn [bind] in *.
  destruct (outer gas fuel s (upper + 1)) as [rest| |] eqn:E'; try discriminate.
  rewrite (IH fuel' _ _ ltac:(lia) E'). exact Hrun.
Qed.

Lemma ranges_more_fuel (l : list Z) (gas gas' : nat) (r : list (Z * Z)) :
  (gas <= gas')%nat -> ranges_fuel gas l = Done r -> ranges_fuel gas' l = Done r.
Proof.
  intros Hle. unfold ranges_fuel. apply outer_more_fuel; assumption.
Qed.

(** ** [ranges] on every list *)

Lemma ranges_fuel_spec (l : list Z) (gas : nat) :
  (length l < gas)%nat ->
  exists out,
    ranges_fuel gas l = Done out
    /\ (forall p, In p out -> In (fst p) l /\ In (snd p) l /\ fst p <= snd p)
    /\ (forall z, In z l -> covers out z)
    /\ (NoDup l -> out = runs (sorted l)).
Proof.
  intros Hgas. unfold ranges_fuel.
  pose proof (sorted_length l) as Hlen.
  pose proof (sorted_perm l) as Hperm.
  pose proof (sorted_ascending l) as Hasc.
  destruct (outer_spec (sorted l) gas ltac:(lia) gas 0%nat)
    as (out & Hrun & G1 & G2 & G3); [lia | lia |].
  exists out. split; [exact Hrun|]. split; [|split].
  - intros p Hp. destruct (G1 p Hp) as (i & j & Hij & Hj & ->). simpl.
    repeat split.
    + apply (Permutation_in _ Hperm). apply nth_In. lia.
    + apply (Permutation_in _ Hperm). apply nth_In. lia.
    + apply val_le; trivial; lia.
  - intros z Hz. apply (Permutation_in _ (Permutation_sym Hperm)) in Hz.
    destruct (In_nth _ _ 0 Hz) as (k & Hk & <-).
    destruct (G2 k) as (i & j & Hij & Hj & Hin); [lia|].
    exists (val (sorted l) i, val (sorted l) j). split; [exact Hin|]. simpl.
    split; apply val_le; trivial; lia.
  - intros Hnd. rewrite (G3 (sorted_strict l Hnd)). reflexivity.
Qed.

Lemma ranges_spec (l : list Z) :
  exists out,
    ranges l = Done out
    /\ (forall p, In p out -> In (fst p) l /\ In (snd p) l /\ fst p <= snd p)
    /\ (forall z, In z l -> covers out z)
    /\ (NoDup l -> out = runs (sorted l)).
Proof. apply ranges_fuel_spec. lia. Qed.

Lemma ranges_nodup (l : list Z) : NoDup l -> ranges l = Done (runs (sorted l)).
Proof.
  intros Hnd. destruct (ranges_spec l) as (out & Hrun & _ & _ & Hruns).
  rewrite Hrun, (Hruns Hnd). reflexivity.
Qed.

(** ** Decimal numerals *)

Lemma count_char_app (c : ascii) (s t : string) :
  count_char c (s ++ t) = (count_char c s + count_char c t)%nat.
Proof.
  induction s as [|d s IH]; simpl; [reflexivity|].
  rewrite IH. destruct (Ascii.eqb c d); reflexivity.
Qed.

Lemma count_char_uint (c : ascii) (d : Decimal.uint) :
  no_digit c = true -> count_char c (NilEmpty.string_of_uint d) = O.
Proof.
  unfold no_digit. rewrite negb_true_iff. cbn [existsb].
  rewrite !orb_false_iff.
  intros (H0 & H1 & H2 & H3 & H4 & H5 & H6 & H7 & H8 & H9 & _).
  induction d; cbn [NilEmpty.string_of_uint count_char];
    rewrite ?H0, ?H1, ?H2, ?H3, ?H4, ?H5, ?H6, ?H7, ?H8, ?H9; auto.
Qed.

(** A numeral holds digits and a minus sign, nothing else. *)
Lemma count_char_str_of_Z (c : ascii) (z : Z) :
  no_digit c = true -> count_char c (str_of_Z z) = O.
Proof.
  intros Hc. unfold str_of_Z, NilZero.string_of_int, NilZero.string_of_uint.
  assert (Hminus : Ascii.eqb c "-" = false).
  { unfold no_digit in Hc. rewrite negb_true_iff in Hc. cbn [existsb] in Hc.
    rewrite !orb_false_iff in Hc. tauto. }
  assert (Hzero : Ascii.eqb c "0" = false).
  { unfold no_digit in Hc. rewrite negb_true_iff in Hc. cbn [existsb] in Hc.
    rewrite !orb_false_iff in Hc. tauto. }
  destruct (Z.to_int z) as [d|d]; destruct d; cbn [count_char];
    rewrite ?Hminus, ?Hzero; trivial;
    match goal with
    | |- count_char c (NilEmpty.string_of_uint ?d) = _ =>
        apply count_char_uint; exact Hc
    end.
Qed.

Lemma Z_of_str_of_Z (z : Z) : Z_of_str (str_of_Z z) = Some z.
Proof.
  unfold Z_of_str, str_of_Z. rewrite NilZero.isi.
  - simpl. rewrite DecimalZ.of_to. reflexivity.
  - destruct z; simpl; try discriminate.
    intros [= E]. revert E. apply DecimalPos.Unsigned.to_uint_nonnil.
  - destruct z; simpl; try discriminate.
    intros [= E]. revert E. apply DecimalPos.Unsigned.to_uint_nonnil.
Qed.

Lemma until_space_app (a r : string) :
  count_char " " a = O ->
  until_space (a ++ String " " r) = (a, String " " r).
Proof.
  induction a as [|c a IH]; intros Hc; [reflexivity|].
  cbn [count_char] in Hc. cbn [append until_space].
  rewrite Ascii.eqb_sym.
  destruct (Ascii.eqb " " c); [discriminate|].
  rewrite (IH Hc). reflexivity.
Qed.

(** ** Reading the tokens of [hmRanges] back *)

Lemma zrange_one (a : Z) : zrange a a = [a].
Proof.
  unfold zrange. replace (a - a + 1) with 1 by lia. simpl. f_equal. lia.
Qed.

Lemma zrange_snoc (lo u : Z) : lo <= u + 1 -> zrange lo (u + 1) = zrange lo u ++ [u + 1].
Proof.
  intros Hle. unfold zrange.
  replace (Z.to_nat (u + 1 - lo + 1)) with (S (Z.to_nat (u - lo + 1))) by lia.
  rewrite seq_S, map_app. simpl. do 2 f_equal. lia.
Qed.

Lemma zrange_two (a : Z) : zrange a (a + 1) = [a; a + 1].
Proof. rewrite zrange_snoc by lia. rewrite zrange_one. reflexivity. Qed.

Lemma expand_thru (a b : Z) :
  expand_token (PStr (str_of_Z a ++ " THRU " ++ str_of_Z b)) = Some (zrange a b).
Proof.
  unfold expand_token.
  change (str_of_Z a ++ " THRU " ++ str_of_Z b)%string
    with (str_of_Z a ++ String " " ("THRU " ++ str_of_Z b))%string.
  rewrite until_space_app by (apply count_char_str_of_Z; reflexivity).
  cbn [strip_prefix append]. rewrite !Ascii.eqb_refl.
  rewrite !Z_of_str_of_Z. reflexivity.
Qed.

Lemma expand_app (t1 t2 : list pyval) (z1 z2 : list Z) :
  expand t1 = Some z1 -> expand t2 = Some z2 -> expand (t1 ++ t2) = Some (z1 ++ z2).
Proof.
  revert z1. induction t1 as [|v t1 IH]; intros z1 H1 H2; simpl in *.
  - injection H1 as <-. exact H2.
  - destruct (expand_token v) as [a|]; [|discriminate].
    destruct (expand t1) as [b|]; [|discriminate].
    injection H1 as <-. rewrite (IH b eq_refl H2), app_assoc. reflexivity.
Qed.

Lemma expand_hmPair (a b : Z) : a <= b -> expand (hmPair (a, b)) = Some (zrange a b).
Proof.
  intros Hab. unfold hmPair.
  destruct (a =? b) eqn:E1; [|destruct (a + 1 =? b) eqn:E2].
  - apply Z.eqb_eq in E1. subst. rewrite zrange_one. reflexivity.
  - apply Z.eqb_eq in E2. subst. rewrite zrange_two. reflexivity.
  - cbn [expand]. rewrite expand_thru, app_nil_r. reflexivity.
Qed.

Lemma expand_pairs (out : list (Z * Z)) :
  Forall (fun p => fst p <= snd p) out ->
  expand (flat_map hmPair out) = Some (flat_map (fun p => zrange (fst p) (snd p)) out).
Proof.
  induction 1 as [|[a b] out Hab Hout IH]; [reflexivity|].
  cbn [flat_map]. apply expand_app; [apply expand_hmPair; exact Hab | exact IH].
Qed.

Lemma runs_aux_values (l : list Z) :
  forall lo cur, lo <= cur ->
    flat_map (fun p => zrange (fst p) (snd p)) (runs_aux lo cur l) = zrange lo cur ++ l.
Proof.
  induction l as [|x l IH]; intros lo cur Hlo; cbn [runs_aux].
  - simpl. reflexivity.
  - destruct (x =? cur + 1) eqn:E.
    + apply Z.eqb_eq in E. subst x. rewrite IH by lia.
      rewrite zrange_snoc by lia. rewrite <- app_assoc. reflexivity.
    + cbn [flat_map fst snd]. rewrite IH by lia.
      rewrite zrange_one. reflexivity.
Qed.

Lemma runs_values (l : list Z) :
  flat_map (fun p => zrange (fst p) (snd p)) (runs l) = l.
Proof.
  destruct l as [|x l]; [reflexivity|].
  cbn [runs]. rewrite runs_aux_values by lia. rewrite zrange_one. reflexivity.
Qed.

(** ** The token list, eight to a line *)

Lemma last_cons {A : Type} (a d : A) (l : list A) : last (a :: l) d = last l a.
Proof.
  revert a d. induction l as [|b l IH]; intros a d; [reflexivity|].
  change (last (a :: b :: l) d) with (last (b :: l) d).
  rewrite !IH. reflexivity.
Qed.

Lemma for_chunks_spec (hmList : list pyval) :
  forall indexes i w,
    for_chunks hmList indexes i w
    = (last indexes i,
       Streams (bdf w ++ map (fun i' => Print (slice hmList i' (i' + chunkSize))
                                              "," ("," ++ nl)) indexes)
               (stderr w)).
Proof.
  induction indexes as [|i' rest IH]; intros i w; cbn [for_chunks].
  - destruct w. simpl. rewrite app_nil_r. reflexivity.
  - rewrite IH, last_cons. unfold print_bdf. cbn [bdf stderr map].
    rewrite <- app_assoc. reflexivity.
Qed.

Lemma full_lines_fit (hmList : list pyval) :
  (8 * full_lines hmList <= length hmList)%nat.
Proof. unfold full_lines, len. lia. Qed.

Lemma full_lines_rest (hmList : list pyval) :
  hmList <> [] ->
  (1 <= length hmList - 8 * full_lines hmList <= 8)%nat.
Proof.
  intros Hne. unfold full_lines, len.
  destruct hmList; [contradiction|]. simpl length. lia.
Qed.

Lemma full_lines_ceil (hmList : list pyval) :
  hmList <> [] -> Z.of_nat (full_lines hmList) + 1 = ceil_div (len hmList) 8.
Proof.
  intros Hne. unfold full_lines, ceil_div, len.
  destruct hmList; [contradiction|]. simpl length. lia.
Qed.

Lemma pyrange_chunks (hmList : list pyval) :
  pyrange 0 (len hmList - chunkSize) chunkSize
  = map (fun k => Z.of_nat (8 * k)) (seq 0 (full_lines hmList)).
Proof.
  unfold pyrange, chunkSize, full_lines.
  replace (len hmList - 8 - 0 + 8 - 1) with (len hmList - 1) by lia.
  apply map_ext. intros k. lia.
Qed.

Lemma last_index (c : nat) :
  last (map (fun k => Z.of_nat (8 * k)) (seq 0 c)) (- chunkSize) + chunkSize
  = Z.of_nat (8 * c).
Proof.
  unfold chunkSize. destruct c as [|c]; [reflexivity|].
  rewrite seq_S, map_app. cbn [map]. rewrite last_last. lia.
Qed.

Lemma slice_chunk (hmList : list pyval) (k : nat) :
  (8 * k + 8 <= length hmList)%nat ->
  slice hmList (Z.of_nat (8 * k)) (Z.of_nat (8 * k) + chunkSize)
  = firstn 8 (skipn (8 * k) hmList).
Proof.
  intros Hk. unfold slice, bound, chunkSize, len.
  destruct (Z.ltb_spec (Z.of_nat (8 * k)) 0); [lia|].
  destruct (Z.ltb_spec (Z.of_nat (8 * k) + 8) 0); [lia|].
  replace (Z.to_nat (Z.min (Z.of_nat (length hmList)) (Z.of_nat (8 * k))))
    with (8 * k)%nat by lia.
  replace (Z.to_nat (Z.min (Z.of_nat (length hmList)) (Z.of_nat (8 * k) + 8)))
    with (8 * k + 8)%nat by lia.
  replace (8 * k + 8 - 8 * k)%nat with 8%nat by lia. reflexivity.
Qed.

Lemma slice_from_chunk (hmList : list pyval) (c : nat) :
  (8 * c <= length hmList)%nat ->
  slice_from hmList (Z.of_nat (8 * c)) = skipn (8 * c) hmList.
Proof.
  intros Hc. unfold slice_from, bound, len.
  destruct (Z.ltb_spec (Z.of_nat (8 * c)) 0); [lia|].
  replace (Z.to_nat (Z.min (Z.of_nat (length hmList)) (Z.of_nat (8 * c))))
    with (8 * c)%nat by lia.
  reflexivity.
Qed.

(** The lines of a token list: the full ones, then the last one. *)
Lemma print_chunks_spec (hmList : list pyval) (w : streams) :
  print_chunks hmList w
  = Streams (bdf w
             ++ map (fun k => Print (firstn 8 (skipn (8 * k) hmList)) "," ("," ++ nl))
                    (seq 0 (full_lines hmList))
             ++ [Print (skipn (8 * full_lines hmList) hmList) "," nl])
            (stderr w).
Proof.
  unfold print_chunks. rewrite for_chunks_spec, pyrange_chunks, last_index.
  pose proof (full_lines_fit hmList) as Hfit.
  rewrite slice_from_chunk by exact Hfit.
  unfold print_bdf. cbn [bdf stderr]. rewrite <- app_assoc, map_map.
  do 3 f_equal. apply map_ext_in. intros k Hk. apply in_seq in Hk.
  rewrite slice_chunk; [reflexivity|].
  assert (8 * k + 8 <= 8 * full_lines hmList)%nat by lia. lia.
Qed.

Lemma chunk_calls_spec (hmList : list pyval) :
  chunk_calls hmList
  = map (fun c => Print c "," ("," ++ nl))
        (map (fun k => firstn 8 (skipn (8 * k) hmList)) (seq 0 (full_lines hmList)))
    ++ [Print (skipn (8 * full_lines hmList) hmList) "," nl].
Proof.
  unfold chunk_calls. rewrite print_chunks_spec. cbn [bdf app].
  rewrite map_map. reflexivity.
Qed.

Lemma print_chunks_calls (hmList : list pyval) (w : streams) :
  print_chunks hmList w = Streams (bdf w ++ chunk_calls hmList) (stderr w).
Proof.
  rewrite print_chunks_spec, chunk_calls_spec, map_map. reflexivity.
Qed.

Lemma chunks_concat (hmList : list pyval) (c : nat) :
  concat (map (fun k => firstn 8 (skipn (8 * k) hmList)) (seq 0 c))
  ++ skipn (8 * c) hmList = hmList.
Proof.
  induction c as [|c IH]; [reflexivity|].
  rewrite seq_S, map_app, concat_app. cbn [map concat].
  rewrite app_nil_r, <- app_assoc.
  replace (8 * S c)%nat with (8 + 8 * c)%nat by lia.
  rewrite <- skipn_skipn, firstn_skipn. exact IH.
Qed.

Lemma chunks_full (hmList : list pyval) :
  Forall (fun c => length c = 8%nat)
    (map (fun k => firstn 8 (skipn (8 * k) hmList)) (seq 0 (full_lines hmList))).
Proof.
  pose proof (full_lines_fit hmList) as Hfit.
  apply Forall_forall. intros c Hc. apply in_map_iff in Hc.
  destruct Hc as (k & <- & Hk). apply in_seq in Hk.
  rewrite length_firstn, length_skipn.
  assert (8 * k + 8 <= 8 * full_lines hmList)%nat by lia. lia.
Qed.

(** ** What [bdfExport] writes *)

Lemma hmRanges_tokens (elems : list Z) : hmRanges elems = Done (hm_tokens elems).
Proof.
  destruct (ranges_spec elems) as (out & Hrun & _).
  unfold hm_tokens, hmRanges. rewrite Hrun. reflexivity.
Qed.

Lemma exportSet_spec (setType matId : Z) (matName : string) (elems : list Z)
    (w : streams) :
  exportSet setType matId matName elems w
  = Done (Streams (bdf w ++ record_calls setType (matId, (matName, elems)))
                  (stderr w ++ [notice matName elems])).
Proof.
  unfold exportSet. rewrite hmRanges_tokens. cbn [bind].
  rewrite print_chunks_calls. unfold print_bdf, print_stderr, record_calls.
  cbn [bdf stderr]. rewrite <- !app_assoc. reflexivity.
Qed.

Lemma exportSets_spec (setType : Z) :
  forall numbered w,
    exportSets setType numbered w
    = Done (Streams (bdf w ++ flat_map (record_calls setType) numbered)
                    (stderr w ++ map (fun item => notice (fst (snd item)) (snd (snd item)))
                                     numbered)).
Proof.
  induction numbered as [|[matId [matName elems]] rest IH]; intros w.
  - destruct w. cbn. rewrite !app_nil_r. reflexivity.
  - cbn [exportSets]. rewrite exportSet_spec. cbn [bind]. rewrite IH.
    cbn [bdf stderr flat_map map fst snd]. rewrite <- !app_assoc. reflexivity.
Qed.

Lemma bdfExport_spec (setDict : list (string * list Z)) (setType : Z) (w : streams) :
  bdfExport setDict setType w
  = Done (Streams
            (bdf w ++ line "CEND"
               :: flat_map (record_calls setType) (enumerate 1 (sort_by item_ltb setDict))
               ++ [line "BEGIN BULK"; line "ENDDATA"])
            (stderr w ++ map (fun item => notice (fst (snd item)) (snd (snd item)))
                             (enumerate 1 (sort_by item_ltb setDict)))).
Proof.
  unfold bdfExport. rewrite exportSets_spec. cbn [bind].
  unfold print_bdf. cbn [bdf stderr]. rewrite <- !app_assoc. reflexivity.
Qed.

Lemma append_empty_r (s : string) : (s ++ EmptyString)%string = s.
Proof. induction s as [|c s IH]; simpl; [|rewrite IH]; reflexivity. Qed.

Lemma append_assoc (a b c : string) : ((a ++ b) ++ c)%string = (a ++ b ++ c)%string.
Proof. induction a as [|x a IH]; simpl; [|rewrite IH]; reflexivity. Qed.

Lemma concat_empty_cons (x : string) (l : list string) :
  String.concat EmptyString (x :: l) = (x ++ String.concat EmptyString l)%string.
Proof. destruct l; simpl; [rewrite append_empty_r|]; reflexivity. Qed.

Lemma contents_cons (c : print_call) (file : list print_call) :
  contents (c :: file) = (text_of_call c ++ contents file)%string.
Proof. unfold contents. cbn [map]. apply concat_empty_cons. Qed.

Lemma contents_app (f1 f2 : list print_call) :
  contents (f1 ++ f2) = (contents f1 ++ contents f2)%string.
Proof.
  induction f1 as [|c f1 IH]; [reflexivity|].
  cbn [app]. rewrite !contents_cons, IH, append_assoc. reflexivity.
Qed.

Lemma document_spec (setDict : list (string * list Z)) (setType : Z) :
  document setDict setType
  = Done ("CEND" ++ nl
          ++ contents (flat_map (record_calls setType)
                         (enumerate 1 (sort_by item_ltb setDict)))
          ++ "BEGIN BULK" ++ nl ++ "ENDDATA" ++ nl)%string.
Proof.
  unfold document. rewrite bdfExport_spec. cbn [bind bdf app].
  rewrite contents_cons, contents_app. reflexivity.
Qed.

(** ** The order of the sets *)

Lemma string_ltb_lt (a b : string) : String.ltb a b = true <-> String_as_OT.lt a b.
Proof.
  rewrite <- String_as_OT.cmp_lt. unfold String.ltb, String_as_OT.cmp.
  destruct (String.compare a b); split; congruence.
Qed.

Lemma string_lt_irrefl (a : string) : ~ String_as_OT.lt a a.
Proof. intros H. exact (String_as_OT.lt_not_eq _ _ H eq_refl). Qed.

Lemma string_ltb_asym (a b : string) : String.ltb a b = true -> String.ltb b a = false.
Proof.
  intros H. apply not_true_iff_false. intros H'.
  apply string_ltb_lt in H. apply string_ltb_lt in H'.
  exact (string_lt_irrefl a (String_as_OT.lt_trans _ _ _ H H')).
Qed.

Lemma string_ltb_total (a b : string) :
  a <> b -> String.ltb a b = false -> String.ltb b a = true.
Proof.
  intros Hne H. unfold String.ltb in *. rewrite String.compare_antisym.
  destruct (String.compare a b) eqn:E; simpl; trivial.
  - apply String.compare_eq_iff in E. contradiction.
  - discriminate.
Qed.

Lemma key_not_after_trans (x y z : string * list Z) :
  not_after key_ltb x y -> not_after key_ltb y z -> not_after key_ltb x z.
Proof.
  unfold not_after, key_ltb. intros Hxy Hyz.
  apply not_true_iff_false. intros Hzx. apply string_ltb_lt in Hzx.
  destruct (string_dec (fst y) (fst x)) as [E|Hne].
  - rewrite E in Hyz. apply string_ltb_lt in Hzx. congruence.
  - apply string_ltb_total in Hxy; [|exact Hne].
    apply string_ltb_lt in Hxy.
    pose proof (String_as_OT.lt_trans _ _ _ Hzx Hxy) as Hzy.
    apply string_ltb_lt in Hzy. congruence.
Qed.

(** Between different names the names decide. *)
Lemma insert_by_key (x : string * list Z) (l : list (string * list Z)) :
  ~ In (fst x) (map fst l) -> insert item_ltb x l = insert key_ltb x l.
Proof.
  induction l as [|y l IH]; intros Hnotin; [reflexivity|].
  cbn [insert map] in *. unfold item_ltb at 1, key_ltb at 1.
  destruct (String.eqb_spec (fst y) (fst x)) as [E|Hne].
  - exfalso. apply Hnotin. left. exact E.
  - destruct (String.ltb (fst y) (fst x)); [|reflexivity].
    rewrite IH; [reflexivity|]. intros Hin. apply Hnotin. now right.
Qed.

Lemma sort_by_key (l : list (string * list Z)) :
  NoDup (map fst l) -> sort_by item_ltb l = sort_by key_ltb l.
Proof.
  induction l as [|x l IH]; intros Hnd; [reflexivity|].
  cbn [map] in Hnd. inversion Hnd as [|? ? Hnotin Hnd']; subst.
  cbn [sort_by]. rewrite (IH Hnd'). apply insert_by_key.
  intros Hin. apply Hnotin.
  eapply Permutation_in; [|exact Hin].
  apply Permutation_map, sort_by_perm.
Qed.

Lemma sort_items_perm (l : list (string * list Z)) :
  NoDup (map fst l) -> Permutation (sort_by item_ltb l) l.
Proof. intros Hnd. rewrite sort_by_key by exact Hnd. apply sort_by_perm. Qed.

(** The names of the sorted items ascend strictly. *)
Lemma sort_items_ascending (l : list (string * list Z)) :
  NoDup (map fst l) ->
  StronglySorted (fun a b => String.ltb (fst a) (fst b) = true) (sort_by item_ltb l).
Proof.
  intros Hnd.
  assert (Hnd' : NoDup (map fst (sort_by item_ltb l))).
  { eapply Permutation_NoDup; [|exact Hnd].
    apply Permutation_map, Permutation_sym, sort_items_perm, Hnd. }
  rewrite sort_by_key in * by exact Hnd.
  assert (Hs : StronglySorted (not_after key_ltb) (sort_by key_ltb l)).
  { apply sort_by_sorted.
    - intros x y. unfold key_ltb. apply string_ltb_asym.
    - apply key_not_after_trans. }
  revert Hnd'. induction Hs as [|a rest Hs IH Ha]; intros Hnd'; constructor.
  - apply IH. cbn [map] in Hnd'. inversion Hnd'; assumption.
  - cbn [map] in Hnd'. inversion Hnd' as [|? ? Hnotin _]; subst.
    rewrite Forall_forall in *. intros y Hy.
    apply string_ltb_total; [|exact (Ha y Hy)].
    intros E. apply Hnotin. rewrite <- E. apply in_map, Hy.
Qed.

(** Two strictly ascending lists with the same elements are the same list. *)
Lemma ascending_unique {A : Type} (R : A -> A -> Prop) :
  (forall x y, R x y -> R y x -> False) ->
  forall l1 l2,
    StronglySorted R l1 -> StronglySorted R l2 -> Permutation l1 l2 -> l1 = l2.
Proof.
  intros Hasym. induction l1 as [|a l1 IH]; intros l2 H1 H2 Hp.
  - apply Permutation_nil in Hp. now subst.
  - destruct l2 as [|b l2].
    + apply Permutation_sym, Permutation_nil in Hp. discriminate.
    + apply StronglySorted_inv in H1. destruct H1 as [H1 Ha].
      apply StronglySorted_inv in H2. destruct H2 as [H2 Hb].
      rewrite Forall_forall in Ha, Hb.
      assert (a = b).
      { assert (Hina : In a (b :: l2)) by (apply (Permutation_in _ Hp); now left).
        assert (Hinb : In b (a :: l1))
          by (apply (Permutation_in _ (Permutation_sym Hp)); now left).
        destruct Hina as [->|Hina]; trivial.
        destruct Hinb as [->|Hinb]; trivial.
        exfalso. exact (Hasym a b (Ha b Hinb) (Hb a Hina)). }
      subst b. f_equal. apply IH; trivial.
      eapply Permutation_cons_inv, Hp.
Qed.

Lemma sort_items_unique (d1 d2 : list (string * list Z)) :
  NoDup (map fst d1) -> Permutation d1 d2 ->
  sort_by item_ltb d1 = sort_by item_ltb d2.
Proof.
  intros Hnd Hp.
  assert (Hnd2 : NoDup (map fst d2)).
  { eapply Permutation_NoDup; [|exact Hnd]. apply Permutation_map, Hp. }
  apply ascending_unique
    with (R := fun a b : string * list Z => String.ltb (fst a) (fst b) = true).
  - intros x y Hxy Hyx. apply string_ltb_asym in Hxy. congruence.
  - apply sort_items_ascending, Hnd.
  - apply sort_items_ascending, Hnd2.
  - eapply perm_trans; [apply sort_items_perm, Hnd|].
    eapply perm_trans; [exact Hp|]. apply Permutation_sym, sort_items_perm, Hnd2.
Qed.

Lemma enumerate_ids {A : Type} (l : list A) :
  forall start, map fst (enumerate start l)
                = map (fun k => start + Z.of_nat k) (seq 0 (length l)).
Proof.
  induction l as [|x l IH]; intros start; [reflexivity|].
  cbn [enumerate map length seq fst]. f_equal; [lia|].
  rewrite IH, <- seq_shift, map_map. apply map_ext. intros k. lia.
Qed.

Lemma enumerate_items {A : Type} (l : list A) :
  forall start, map snd (enumerate start l) = l.
Proof.
  induction l as [|x l IH]; intros start; [reflexivity|].
  cbn [enumerate map snd]. rewrite IH. reflexivity.
Qed.

(** ** Physical lines *)

Lemma count_char_concat (c : ascii) (sep : string) (l : list string) :
  count_char c sep = O -> Forall (fun s => count_char c s = O) l ->
  count_char c (String.concat sep l) = O.
Proof.
  intros Hsep. induction 1 as [|x l Hx Hl IH]; [reflexivity|].
  destruct l as [|y l]; [exact Hx|].
  change (String.concat sep (x :: y :: l))
    with (x ++ sep ++ String.concat sep (y :: l))%string.
  rewrite !count_char_app, Hx, Hsep, IH. reflexivity.
Qed.

Lemma count_char_spaces (c : ascii) (k : nat) :
  Ascii.eqb c " " = false -> count_char c (spaces k) = O.
Proof.
  intros Hc. induction k as [|k IH]; [reflexivity|].
  cbn [spaces count_char]. rewrite Hc. exact IH.
Qed.

Lemma count_char_fmt_d (c : ascii) (width : nat) (z : Z) :
  no_digit c = true -> Ascii.eqb c " " = false -> count_char c (fmt_d width z) = O.
Proof.
  intros Hd Hs. unfold fmt_d.
  rewrite count_char_app, count_char_spaces, count_char_str_of_Z; trivial.
Qed.

(** No token of [hmRanges] holds a line break. *)
Lemma hmPair_one_line (p : Z * Z) :
  Forall (fun v => physical_lines (str v) = O) (hmPair p).
Proof.
  destruct p as [lower upper]. unfold hmPair, physical_lines.
  destruct (lower =? upper); [|destruct (lower + 1 =? upper)];
    repeat constructor; cbn [str];
    rewrite ?count_char_app, ?count_char_str_of_Z; reflexivity.
Qed.

Lemma hm_tokens_one_line (elems : list Z) :
  Forall (fun v => physical_lines (str v) = O) (hm_tokens elems).
Proof.
  unfold hm_tokens, hmRanges.
  destruct (ranges elems) as [pairs| |]; cbn [bind]; try constructor.
  apply Forall_flat_map, Forall_forall. intros p _. apply hmPair_one_line.
Qed.

Lemma call_lines (args : list pyval) (e : string) :
  Forall (fun v => physical_lines (str v) = O) args ->
  physical_lines (text_of_call (Print args "," e)) = physical_lines e.
Proof.
  intros Hargs. unfold physical_lines, text_of_call. cbn [p_args p_sep p_end].
  rewrite count_char_app, count_char_concat; trivial.
  apply Forall_map. exact Hargs.
Qed.

Lemma chunk_lines (full : list (list pyval)) (final : list pyval) :
  Forall (Forall (fun v => physical_lines (str v) = O)) full ->
  Forall (fun v => physical_lines (str v) = O) final ->
  physical_lines (contents (map (fun c => Print c "," ("," ++ nl)) full
                            ++ [Print final "," nl]))
  = S (length full).
Proof.
  intros Hfull Hfinal. induction Hfull as [|c full Hc Hfull IH].
  - cbn [map app]. rewrite contents_cons. unfold physical_lines in *.
    rewrite count_char_app. fold (physical_lines (text_of_call (Print final "," nl))).
    rewrite call_lines by exact Hfinal. reflexivity.
  - cbn [map app length]. rewrite contents_cons. unfold physical_lines in *.
    rewrite count_char_app, IH.
    fold (physical_lines (text_of_call (Print c "," ("," ++ nl)))).
    rewrite call_lines by exact Hc. reflexivity.
Qed.

Lemma set_line_lines (matId : Z) : physical_lines (text_of_call (set_line matId)) = O.
Proof.
  unfold physical_lines, set_line, text_of_call. cbn [p_args p_sep p_end map str].
  cbn [String.concat]. rewrite !count_char_app, count_char_fmt_d; reflexivity.
Qed.

(** * The claims *)

(** C1.  On a list without duplicates, the closed intervals of the pairs
    that [ranges] yields hold exactly the values of the list; every pair
    has its bounds in order; the pairs ascend, and no two of them overlap or
    are adjacent; the pairs are exactly the maximal contiguous runs of
    the values, and there are as many pairs as there are runs.  On the
    list of the docstring the pairs are (1,4), (10,12), (17,18), (20,20). *)
Theorem ranges_canonical :
  ranges [10; 11; 12; 1; 2; 3; 4; 17; 18; 20]
  = Done [(1, 4); (10, 12); (17, 18); (20, 20)]
  /\ forall l : list Z,
      NoDup l ->
      exists out,
        ranges l = Done out
        /\ (forall z, covers out z <-> In z l)
        /\ Forall (fun p => fst p <= snd p) out
        /\ StronglySorted apart out
        /\ (forall p q, In p out -> In q out -> p <> q -> apart p q \/ apart q p)
        /\ (forall a b, In (a, b) out <-> is_run l a b)
        /\ length out = num_runs l.
Proof.
  split; [reflexivity|].
  intros l Hnd. exists (runs (sorted l)).
  pose proof (sorted_strict l Hnd) as Hs.
  destruct (runs_apart (sorted l) Hs) as [Hap Hord].
  assert (Hcov : forall z, covers (runs (sorted l)) z <-> In z l).
  { intros z. rewrite runs_covers by exact Hs.
    split; apply Permutation_in;
      [apply sorted_perm | apply Permutation_sym, sorted_perm]. }
  split; [apply ranges_nodup, Hnd|].
  split; [exact Hcov|]. split; [exact Hord|]. split; [exact Hap|].
  split; [|split].
  - intros p q Hp Hq Hne.
    destruct (apart_pairwise _ Hap p q Hp Hq) as [E|H]; [contradiction | exact H].
  - intros a b. split.
    + apply out_is_run; assumption.
    + apply is_run_out; assumption.
  - apply out_length; assumption.
Qed.

Lemma ranges_canonical_witness :
  NoDup [3; 1; 2; 7]
  /\ exists out,
      ranges [3; 1; 2; 7] = Done out
      /\ (forall z, covers out z <-> In z [3; 1; 2; 7])
      /\ length out = num_runs [3; 1; 2; 7].
Proof.
  assert (Hnd : NoDup [3; 1; 2; 7]).
  { repeat (constructor; [simpl; intuition discriminate|]). constructor. }
  split; [exact Hnd|].
  destruct (proj2 ranges_canonical [3; 1; 2; 7] Hnd)
    as (out & Hrun & Hcov & _ & _ & _ & _ & Hlen).
  exists out. auto.
Defined.

(** C2.  The code does not do what the claim says.  [ranges] sorts the
    list with its duplicates and never removes them, while its test for
    a gap compares differences of values with differences of indexes,
    which is right only for distinct values.  On [1, 1, 3, 4] it yields
    the one pair (1, 4): not the pairs (1, 1), (3, 4) that it yields on
    the deduplicated list [1, 3, 4], and a pair that covers 2, which is
    not in the list, against the docstring's "ranges of continuous
    sequences within list of integers". *)
Theorem ranges_duplicates_bug :
  ranges [1; 1; 3; 4] = Done [(1, 4)]
  /\ ranges (dedup [1; 1; 3; 4]) = Done [(1, 1); (3, 4)]
  /\ ranges [1; 1; 3; 4] <> ranges (dedup [1; 1; 3; 4])
  /\ covers [(1, 4)] 2
  /\ ~ In 2 [1; 1; 3; 4].
Proof.
  split; [reflexivity|]. split; [reflexivity|]. split; [discriminate|]. split.
  - exists (1, 4). simpl. split; [now left | lia].
  - simpl. intuition discriminate.
Qed.

(** C9.  [ranges] returns on every list: one unit of fuel more than the
    list is long is enough, and more fuel gives the same pairs.  In the
    binary search, started with the boundary more than one index above
    [upper], one pass leaves [mid] (the next [upper]) and the boundary
    strictly closer together than [upper] and the boundary were; the
    search started at [lower] returns an index no lower than [lower], so
    that the next [lower] is strictly higher. *)
Theorem ranges_terminates (l : list Z) :
  (exists out,
      ranges l = Done out
      /\ forall gas, (length l < gas)%nat -> ranges_fuel gas l = Done out)
  /\ (forall gas upper boundary,
        (length l <= gas)%nat ->
        (upper + 1 < boundary)%nat -> (boundary <= length (sorted l))%nat ->
        exists boundary' mid,
          shrink gas (sorted l) upper boundary ((upper + boundary) / 2)%nat
          = Done (boundary', mid)
          /\ (upper <= mid < boundary')%nat /\ (boundary' <= boundary)%nat
          /\ (boundary' - mid < boundary - upper)%nat)
  /\ (forall gas lower,
        (length l <= gas)%nat -> (lower < length (sorted l))%nat ->
        exists upper,
          search gas gas (sorted l) lower (length (sorted l)) = Done upper
          /\ (lower < upper + 1 <= length (sorted l))%nat).
Proof.
  pose proof (sorted_length l) as Hlen.
  split; [|split].
  - destruct (ranges_spec l) as (out & Hrun & _).
    exists out. split; [exact Hrun|].
    intros gas Hgas. apply ranges_more_fuel with (gas := S (length l)); [lia|].
    exact Hrun.
  - intros gas upper boundary Hgas Hu Hb.
    destruct (shrink_spec (sorted l) gas upper boundary ((upper + boundary) / 2)%nat)
      as (b' & m' & Hrun & Hm' & Hb' & Hcase & _); [lia | lia | lia |].
    exists b', m'. split; [exact Hrun|]. split; [lia|]. split; [lia|].
    destruct Hcase as [[-> ->]|[Hlt _]]; lia.
  - intros gas lower Hgas Hl.
    destruct (search_spec (sorted l) gas ltac:(lia) lower gas lower (length (sorted l)))
      as (u & Hrun & Hu & _); [lia | lia | lia |].
    exists u. split; [exact Hrun | lia].
Qed.

(** C3, as stated, fails: the pair (10, 12) spans three integers and is
    written as a range, so the tokens are not
    ['1 THRU 4', 10, 11, 12, 17, 18, 20]. *)
Lemma hmRanges_doctest_counterexample :
  hmRanges [10; 11; 12; 1; 2; 3; 4; 17; 18; 20]
  <> Done [PStr "1 THRU 4"; PInt 10; PInt 11; PInt 12; PInt 17; PInt 18; PInt 20].
Proof. discriminate. Qed.

(** C3, amended.  The tokens for the pairs (1,4), (10,12), (17,18), (20,20),
    which are the tokens of [hmRanges] on the list of the docstring, are
    ['1 THRU 4', '10 THRU 12', 17, 18, 20]. *)
Theorem hmRanges_doctest :
  hmRanges [10; 11; 12; 1; 2; 3; 4; 17; 18; 20]
  = Done [PStr "1 THRU 4"; PStr "10 THRU 12"; PInt 17; PInt 18; PInt 20]
  /\ flat_map hmPair [(1, 4); (10, 12); (17, 18); (20, 20)]
     = [PStr "1 THRU 4"; PStr "10 THRU 12"; PInt 17; PInt 18; PInt 20].
Proof. split; reflexivity. Qed.

(** C5.  [hmRanges] yields, pair after pair of [ranges]: the one integer
    when the bounds are equal; the two bounds, one after the other, when
    the upper bound is the lower bound plus one; and otherwise the one
    string "<lower> THRU <upper>". *)
Theorem hmRanges_rendering (intList : list Z) :
  exists pairs,
    ranges intList = Done pairs
    /\ hmRanges intList = Done (flat_map hmPair pairs)
    /\ forall lower upper,
         In (lower, upper) pairs ->
         (lower = upper -> hmPair (lower, upper) = [PInt lower])
         /\ (upper = lower + 1 -> hmPair (lower, upper) = [PInt lower; PInt upper])
         /\ (lower <> upper -> upper <> lower + 1 ->
             hmPair (lower, upper)
             = [PStr (str_of_Z lower ++ " THRU " ++ str_of_Z upper)]).
Proof.
  destruct (ranges_spec intList) as (pairs & Hrun & _).
  exists pairs. split; [exact Hrun|]. split.
  - unfold hmRanges. rewrite Hrun. reflexivity.
  - intros lower upper _. unfold hmPair. repeat split.
    + intros ->. rewrite Z.eqb_refl. reflexivity.
    + intros ->. rewrite Z.eqb_refl.
      destruct (Z.eqb_spec lower (lower + 1)); [lia | reflexivity].
    + intros H1 H2.
      destruct (Z.eqb_spec lower upper); [contradiction|].
      destruct (Z.eqb_spec (lower + 1) upper); [lia | reflexivity].
Qed.

(** C6.  For a list without duplicates, reading the tokens of [hmRanges]
    back, every "l THRU u" as the integers from l to u and every integer
    as itself, gives the values of the list in ascending order: each
    value of the list once, and nothing else. *)
Theorem hmRanges_roundtrip (intList : list Z) :
  NoDup intList ->
  exists tokens,
    hmRanges intList = Done tokens
    /\ expand tokens = Some (sorted intList)
    /\ NoDup (sorted intList)
    /\ forall z, In z (sorted intList) <-> In z intList.
Proof.
  intros Hnd. exists (flat_map hmPair (runs (sorted intList))).
  pose proof (sorted_strict intList Hnd) as Hs.
  split; [|split; [|split]].
  - unfold hmRanges. rewrite (ranges_nodup intList Hnd). reflexivity.
  - rewrite expand_pairs by (apply runs_apart, Hs).
    rewrite runs_values. reflexivity.
  - eapply Permutation_NoDup; [apply Permutation_sym, sorted_perm | exact Hnd].
  - intros z. split; apply Permutation_in;
      [apply sorted_perm | apply Permutation_sym, sorted_perm].
Qed.

Lemma hmRanges_roundtrip_witness :
  NoDup [10; 11; 12; 1; 2; 3; 4; 17; 18; 20]
  /\ exists tokens,
      hmRanges [10; 11; 12; 1; 2; 3; 4; 17; 18; 20] = Done tokens
      /\ expand tokens = Some [1; 2; 3; 4; 10; 11; 12; 17; 18; 20].
Proof.
  assert (Hnd : NoDup [10; 11; 12; 1; 2; 3; 4; 17; 18; 20]).
  { repeat (constructor; [simpl; intuition discriminate|]). constructor. }
  split; [exact Hnd|].
  destruct (hmRanges_roundtrip _ Hnd) as (tokens & Hrun & Hexp & _).
  exists tokens. split; [exact Hrun | exact Hexp].
Defined.

(** C4, as stated, fails for a set without tokens: the last [print] of the
    loop is made all the same, so the record is one physical line, not
    ceil(0 / 8) = 0 lines, and that line holds no token, not 1 to 8. *)
Lemma chunking_counterexample :
  hmRanges [] = Done []
  /\ chunk_calls [] = [Print [] "," nl]
  /\ Z.of_nat (physical_lines (contents (set_line 1 :: chunk_calls [])))
     <> ceil_div (len (@nil pyval)) 8.
Proof. repeat split. discriminate. Qed.

(** C4, amended.  The record of a set is the 'SET' call, the calls for its
    tokens and the '$HMSET' call.  When the set has K >= 1 tokens, the
    calls for the tokens are ceil(K / 8) in number, each a physical line;
    all but the last print exactly 8 tokens and end with a comma before
    the line break; the last prints 1 to 8 tokens and ends with the line
    break alone; together they print the tokens in order.  When the set
    has no token, there is one call, which prints the line break alone. *)
Theorem bdfExport_chunking (setType matId : Z) (matName : string) (elems : list Z)
    (w : streams) :
  exists tokens w',
    hmRanges elems = Done tokens
    /\ exportSet setType matId matName elems w = Done w'
    /\ bdf w' = bdf w ++ set_line matId :: chunk_calls tokens
                      ++ [hmset_line setType matId matName]
    /\ (tokens = [] ->
        chunk_calls tokens = [Print [] "," nl]
        /\ physical_lines (contents (set_line matId :: chunk_calls tokens)) = 1%nat)
    /\ (tokens <> [] ->
        exists full final,
          chunk_calls tokens
          = map (fun c => Print c "," ("," ++ nl)) full ++ [Print final "," nl]
          /\ Z.of_nat (length full) + 1 = ceil_div (len tokens) 8
          /\ Forall (fun c => length c = 8%nat) full
          /\ (1 <= length final <= 8)%nat
          /\ concat full ++ final = tokens
          /\ Z.of_nat (physical_lines (contents (set_line matId :: chunk_calls tokens)))
             = ceil_div (len tokens) 8).
Proof.
  exists (hm_tokens elems). eexists.
  split; [apply hmRanges_tokens|]. split; [apply exportSet_spec|].
  split; [reflexivity|]. split.
  - intros ->. split; [reflexivity|].
    rewrite contents_cons. unfold physical_lines. rewrite count_char_app.
    fold (physical_lines (text_of_call (set_line matId))).
    rewrite set_line_lines. reflexivity.
  - intros Hne. set (tokens := hm_tokens elems) in *.
    exists (map (fun k => firstn 8 (skipn (8 * k) tokens)) (seq 0 (full_lines tokens))),
           (skipn (8 * full_lines tokens) tokens).
    assert (Hlen : length (map (fun k => firstn 8 (skipn (8 * k) tokens))
                              (seq 0 (full_lines tokens))) = full_lines tokens)
      by (rewrite length_map, length_seq; reflexivity).
    split; [apply chunk_calls_spec|].
    split; [rewrite Hlen; apply full_lines_ceil, Hne|].
    split; [apply chunks_full|].
    split; [rewrite length_skipn; apply full_lines_rest, Hne|].
    split; [apply chunks_concat|].
    rewrite contents_cons. unfold physical_lines. rewrite count_char_app.
    fold (physical_lines (text_of_call (set_line matId))).
    rewrite set_line_lines, chunk_calls_spec. cbn [Nat.add].
    fold (physical_lines
            (contents (map (fun c => Print c "," ("," ++ nl))
                           (map (fun k => firstn 8 (skipn (8 * k) tokens))
                                (seq 0 (full_lines tokens)))
                       ++ [Print (skipn (8 * full_lines tokens) tokens) "," nl]))).
    pose proof (hm_tokens_one_line elems) as Hone. fold tokens in Hone.
    rewrite <- (chunks_concat tokens (full_lines tokens)) in Hone.
    apply Forall_app in Hone. destruct Hone as [Hfull Hfinal].
    apply Forall_concat in Hfull.
    rewrite chunk_lines by assumption.
    rewrite Hlen, <- (full_lines_ceil tokens Hne). lia.
Qed.

(** C7.  Two dictionaries with the same items, in whatever order the items
    were inserted, make [bdfExport] write the same calls and so the same
    document, byte for byte.  The sets are numbered 1, 2, ..., N in the
    strictly ascending order of their names, and the records are written
    in that order. *)
Theorem bdfExport_deterministic (d1 d2 : list (string * list Z)) (setType : Z)
    (w : streams) :
  NoDup (map fst d1) -> Permutation d1 d2 ->
  bdfExport d1 setType w = bdfExport d2 setType w
  /\ document d1 setType = document d2 setType
  /\ exists numbered,
      numbered = enumerate 1 (sort_by item_ltb d1)
      /\ map fst numbered = map (fun k => 1 + Z.of_nat k) (seq 0 (length d1))
      /\ Permutation (map snd numbered) d1
      /\ StronglySorted (fun a b => String.ltb (fst a) (fst b) = true)
           (map snd numbered)
      /\ exists w',
          bdfExport d1 setType w = Done w'
          /\ bdf w' = bdf w ++ line "CEND"
                        :: flat_map (record_calls setType) numbered
                        ++ [line "BEGIN BULK"; line "ENDDATA"].
Proof.
  intros Hnd Hp.
  pose proof (sort_items_unique d1 d2 Hnd Hp) as Hsame.
  split; [|split].
  - rewrite !bdfExport_spec, Hsame. reflexivity.
  - rewrite !document_spec, Hsame. reflexivity.
  - eexists. split; [reflexivity|].
    rewrite enumerate_ids, enumerate_items.
    rewrite (Permutation_length (sort_items_perm d1 Hnd)).
    split; [reflexivity|]. split; [apply sort_items_perm, Hnd|].
    split; [apply sort_items_ascending, Hnd|].
    eexists. split; [apply bdfExport_spec | reflexivity].
Qed.

Lemma bdfExport_deterministic_witness :
  NoDup (map fst [("SET_B", [2; 4; 6]); ("SET_A", [10; 11; 12; 1])]%string)
  /\ document [("SET_B", [2; 4; 6]); ("SET_A", [10; 11; 12; 1])]%string 2
     = document [("SET_A", [10; 11; 12; 1]); ("SET_B", [2; 4; 6])]%string 2.
Proof.
  assert (Hnd : NoDup (map fst [("SET_B", [2; 4; 6]); ("SET_A", [10; 11; 12; 1])]%string)).
  { repeat (constructor; [simpl; intuition discriminate|]). constructor. }
  split; [exact Hnd|].
  apply (bdfExport_deterministic _ _ 2 (Streams [] []) Hnd (perm_swap _ _ [])).
Defined.

(** C8.  [ranges] yields nothing on the empty list.  [bdfExport] on a
    dictionary whose one set has no member writes the header, the record
    of the set and the trailer: the record line 'SET    1 = ' is followed
    by no token and a line break, and then by the '$HMSET' line of the set. *)
Theorem empty_inputs :
  ranges [] = Done []
  /\ (forall (matName : string) (setType : Z) (w : streams),
        exists w',
          bdfExport [(matName, [])] setType w = Done w'
          /\ bdf w' = bdf w ++ [line "CEND"; set_line 1; Print [] "," nl;
                                hmset_line setType 1 matName;
                                line "BEGIN BULK"; line "ENDDATA"])
  /\ text_of_call (set_line 1) = "SET    1 = "%string
  /\ text_of_call (Print [] "," nl) = nl
  /\ document [("EMPTY"%string, [])] 2
     = Done ("CEND" ++ nl
             ++ "SET    1 = " ++ nl
             ++ "$HMSET        1        2 " ++ dquote ++ "EMPTY" ++ dquote ++ nl
             ++ "BEGIN BULK" ++ nl
             ++ "ENDDATA" ++ nl)%string.
Proof.
  split; [reflexivity|]. split; [|repeat split].
  intros matName setType w. eexists. split; [apply bdfExport_spec | reflexivity].
Qed.

(** The calls of a record are none of the header and the trailer. *)
Lemma record_calls_inner (setType : Z) (item : Z * (string * list Z)) :
  Forall (fun c => c <> line "CEND" /\ c <> line "BEGIN BULK" /\ c <> line "ENDDATA")
    (record_calls setType item).
Proof.
  destruct item as [matId [matName elems]]. unfold record_calls.
  constructor; [repeat split; discriminate|].
  apply Forall_app. split.
  - rewrite chunk_calls_spec. apply Forall_app. split.
    + apply Forall_forall. intros c Hc. apply in_map_iff in Hc.
      destruct Hc as (args & <- & _). repeat split; discriminate.
    + constructor; [repeat split; discriminate | constructor].
  - constructor; [repeat split; discriminate | constructor].
Qed.

(** C10.  The document that [bdfExport] writes is the line 'CEND', then
    the records of the sets, then the lines 'BEGIN BULK' and 'ENDDATA'.
    Every record starts with its 'SET' call and ends with its '$HMSET'
    call, and no call of a record is the header or a trailer line.  For
    the empty dictionary the document is these three lines and no more. *)
Theorem bdfExport_frame (setDict : list (string * list Z)) (setType : Z) (w : streams) :
  (exists w' records,
      bdfExport setDict setType w = Done w'
      /\ bdf w' = bdf w ++ line "CEND" :: records
                    ++ [line "BEGIN BULK"; line "ENDDATA"]
      /\ records = flat_map (record_calls setType)
                     (enumerate 1 (sort_by item_ltb setDict))
      /\ Forall (fun c => c <> line "CEND" /\ c <> line "BEGIN BULK"
                          /\ c <> line "ENDDATA") records
      /\ document setDict setType
         = Done ("CEND" ++ nl ++ contents records
                 ++ "BEGIN BULK" ++ nl ++ "ENDDATA" ++ nl)%string)
  /\ (forall matId matName elems,
        exists calls,
          record_calls setType (matId, (matName, elems))
          = set_line matId :: calls ++ [hmset_line setType matId matName])
  /\ (exists w',
        bdfExport [] setType w = Done w'
        /\ bdf w' = bdf w ++ [line "CEND"; line "BEGIN BULK"; line "ENDDATA"])
  /\ document [] setType = Done ("CEND" ++ nl ++ "BEGIN BULK" ++ nl ++ "ENDDATA" ++ nl)%string
  /\ physical_lines ("CEND" ++ nl ++ "BEGIN BULK" ++ nl ++ "ENDDATA" ++ nl) = 3%nat.
Proof.
  split; [|split; [|split; [|split]]].
  - eexists. eexists. split; [apply bdfExport_spec|].
    split; [reflexivity|]. split; [reflexivity|]. split.
    + apply Forall_flat_map, Forall_forall. intros item _. apply record_calls_inner.
    + apply document_spec.
  - intros matId matName elems. eexists. reflexivity.
  - eexists. split; [apply bdfExport_spec | reflexivity].
  - reflexivity.
  - reflexivity.
Qed.

(** * Further properties *)

(** ** The order of the input *)

Lemma ascending_unique_le (l1 : list Z) :
  forall l2,
    StronglySorted Z.le l1 -> StronglySorted Z.le l2 -> Permutation l1 l2 -> l1 = l2.
Proof.
  induction l1 as [|a l1 IH]; intros l2 H1 H2 Hp.
  - apply Permutation_nil in Hp. now subst.
  - destruct l2 as [|b l2].
    + apply Permutation_sym, Permutation_nil in Hp. discriminate.
    + apply StronglySorted_inv in H1. destruct H1 as [H1 Ha].
      apply StronglySorted_inv in H2. destruct H2 as [H2 Hb].
      rewrite Forall_forall in Ha, Hb.
      assert (a = b).
      { assert (Hina : In a (b :: l2)) by (apply (Permutation_in _ Hp); now left).
        assert (Hinb : In b (a :: l1))
          by (apply (Permutation_in _ (Permutation_sym Hp)); now left).
        destruct Hina as [->|Hina]; trivial.
        destruct Hinb as [->|Hinb]; trivial.
        pose proof (Ha b Hinb). pose proof (Hb a Hina). lia. }
      subst b. f_equal. apply IH; trivial.
      eapply Permutation_cons_inv, Hp.
Qed.

Lemma sorted_permutation (l l' : list Z) : Permutation l l' -> sorted l = sorted l'.
Proof.
  intros Hp. apply ascending_unique_le; try apply sorted_ascending.
  eapply perm_trans; [apply sorted_perm|].
  eapply perm_trans; [exact Hp | apply Permutation_sym, sorted_perm].
Qed.

(** X1.  [ranges] and [hmRanges] do not depend on the order of the list:
    two lists with the same integers, each as many times, give the same
    pairs and the same tokens. *)
Theorem ranges_permutation (l l' : list Z) :
  Permutation l l' -> ranges l = ranges l' /\ hmRanges l = hmRanges l'.
Proof.
  intros Hp.
  assert (E : ranges l = ranges l').
  { unfold ranges, ranges_fuel.
    rewrite (sorted_permutation l l' Hp), (Permutation_length Hp). reflexivity. }
  split; [exact E|]. unfold hmRanges. rewrite E. reflexivity.
Qed.

Lemma ranges_permutation_witness :
  Permutation [3; 1; 2; 7] [7; 2; 1; 3] /\ ranges [3; 1; 2; 7] = ranges [7; 2; 1; 3].
Proof.
  assert (Hp : Permutation [3; 1; 2; 7] [7; 2; 1; 3]).
  { apply Permutation_trans with ([3; 1; 2] ++ [7]); [reflexivity|].
    apply Permutation_trans with (7 :: [3; 1; 2]);
      [apply Permutation_sym, Permutation_cons_append|].
    apply perm_skip.
    apply Permutation_trans with ([3; 1] ++ [2]); [reflexivity|].
    apply Permutation_trans with (2 :: [3; 1]);
      [apply Permutation_sym, Permutation_cons_append|].
    apply perm_skip, perm_swap. }
  split; [exact Hp|]. apply (ranges_permutation _ _ Hp).
Defined.

(** ** The pairs of every list *)

Lemma search_jump (s : list Z) (gas : nat) :
  (length s <= gas)%nat ->
  forall fuel upper boundary,
    (upper < boundary)%nat -> (boundary <= length s)%nat ->
    (boundary - upper <= fuel)%nat ->
    (boundary = length s \/ jump s upper boundary) ->
    exists upper',
      search gas fuel s upper boundary = Done upper'
      /\ (upper <= upper' < boundary)%nat
      /\ ((upper' + 1)%nat = length s \/ jump s upper' (upper' + 1)).
Proof.
  intros Hgas.
  induction fuel as [|fuel IH]; intros upper boundary Hu Hb Hf Hbd; [lia|].
  cbn [search]. destruct (upper + 1 <? boundary)%nat eqn:E.
  - apply Nat.ltb_lt in E.
    destruct (shrink_spec s gas upper boundary ((upper + boundary) / 2)%nat)
      as (b' & m' & Hrun & Hm' & Hb' & Hcase & Hle); [lia | lia | lia |].
    rewrite Hrun. cbn [bind].
    destruct (IH m' b') as (u' & Hsearch & Hu' & Hend); [lia | lia | | |].
    + destruct Hcase as [[-> ->]|[Hlt _]]; lia.
    + unfold jump in *.
      destruct Hcase as [[-> ->]|[Hlt Hj]]; [destruct Hbd as [Hn|Hj]|];
        [now left | right; lia | right; lia].
    + exists u'. split; [exact Hsearch|]. split; [lia | exact Hend].
  - apply Nat.ltb_ge in E. exists upper.
    split; [reflexivity|]. split; [lia|].
    replace (upper + 1)%nat with boundary by lia. exact Hbd.
Qed.

Lemma hmPair_length (p : Z * Z) : (1 <= length (hmPair p) <= 2)%nat.
Proof.
  destruct p as [a b]. unfold hmPair.
  destruct (a =? b); [|destruct (a + 1 =? b)]; simpl; lia.
Qed.

Lemma hmPair_same (a : Z) : hmPair (a, a) = [PInt a].
Proof. unfold hmPair. rewrite Z.eqb_refl. reflexivity. Qed.

Lemma outer_blocks (s : list Z) (gas : nat) :
  (length s <= gas)%nat ->
  forall fuel lower,
    (lower <= length s)%nat -> (length s - lower < fuel)%nat ->
    exists out,
      outer gas fuel s lower = Done out
      /\ (length (flat_map hmPair out) <= length s - lower)%nat
      /\ (StronglySorted Z.le s ->
          StronglySorted apart out
          /\ Forall (fun p => val s lower <= fst p <= snd p) out).
Proof.
  intros Hgas.
  induction fuel as [|fuel IH]; intros lower Hl Hf; [lia|].
  cbn [outer]. destruct (lower <? length s)%nat eqn:E.
  - apply Nat.ltb_lt in E.
    destruct (search_jump s gas Hgas gas lower (length s))
      as (u & Hsearch & Hu & Hend); [lia | lia | lia | now left |].
    rewrite Hsearch. cbn [bind]. rewrite !getitem_lt by lia. cbn [bind].
    destruct (IH (u + 1)%nat) as (rest & Hrest & Hlen & Hsorted); [lia | lia |].
    rewrite Hrest. cbn [bind].
    exists ((val s lower, val s u) :: rest).
    split; [reflexivity|]. split.
    + cbn [flat_map]. rewrite length_app.
      destruct (Nat.eq_dec u lower) as [->|Hne].
      * rewrite hmPair_same. simpl length. lia.
      * pose proof (hmPair_length (val s lower, val s u)). lia.
    + intros Hs. destruct (Hsorted Hs) as [Hap Hall].
      assert (Hlu : val s lower <= val s u) by (apply val_le; trivial; lia).
      split.
      * constructor; [exact Hap|].
        destruct Hend as [Hn|Hj].
        -- (* the list is used up *)
           destruct rest as [|p rest]; [constructor|].
           exfalso. clear -Hrest Hn. destruct fuel; [discriminate|].
           cbn [outer] in Hrest. rewrite Hn, Nat.ltb_irrefl in Hrest. discriminate.
        -- eapply Forall_impl; [|exact Hall].
           intros p Hp. unfold apart, jump in *. simpl in *. lia.
      * constructor; [simpl; lia|].
        destruct Hend as [Hn|Hj].
        -- destruct rest as [|p rest]; [constructor|].
           exfalso. clear -Hrest Hn. destruct fuel; [discriminate|].
           cbn [outer] in Hrest. rewrite Hn, Nat.ltb_irrefl in Hrest. discriminate.
        -- eapply Forall_impl; [|exact Hall].
           intros p Hp. unfold jump in *. simpl in *. lia.
  - exists []. split; [reflexivity|]. split; [simpl; lia|].
    intros _. split; constructor.
Qed.

(** X2.  On every list, with duplicates or without, the pairs of
    [ranges] have their bounds in order and ascend, and at least one
    integer lies between any pair and the next: no two pairs overlap or
    are adjacent. *)
Theorem ranges_always_apart (l : list Z) :
  exists out,
    ranges l = Done out
    /\ StronglySorted apart out
    /\ Forall (fun p => fst p <= snd p) out
    /\ (forall p q, In p out -> In q out -> p = q \/ apart p q \/ apart q p).
Proof.
  destruct (outer_blocks (sorted l) (S (length l))) with (fuel := S (length l)) (lower := 0%nat)
    as (out & Hrun & _ & Hsorted).
  - rewrite sorted_length. lia.
  - lia.
  - rewrite sorted_length. lia.
  - destruct (Hsorted (sorted_ascending l)) as [Hap Hall].
    exists out. split; [exact Hrun|]. split; [exact Hap|]. split.
    + eapply Forall_impl; [|exact Hall]. simpl. intros p Hp. lia.
    + apply apart_pairwise, Hap.
Qed.

(** X3.  [hmRanges] yields no more tokens than the list has integers. *)
Theorem hmRanges_never_longer (l : list Z) :
  exists tokens, hmRanges l = Done tokens /\ (length tokens <= length l)%nat.
Proof.
  destruct (outer_blocks (sorted l) (S (length l))) with (fuel := S (length l)) (lower := 0%nat)
    as (out & Hrun & Hlen & _).
  - rewrite sorted_length. lia.
  - lia.
  - rewrite sorted_length. lia.
  - exists (flat_map hmPair out). split.
    + unfold hmRanges, ranges, ranges_fuel. rewrite Hrun. reflexivity.
    + rewrite sorted_length in Hlen. lia.
Qed.

(** ** From pairs to values and back *)

Lemma In_zrange (a b z : Z) : In z (zrange a b) <-> a <= z <= b.
Proof.
  unfold zrange. rewrite in_map_iff. split.
  - intros (k & <- & Hk). apply in_seq in Hk. lia.
  - intros Hz. exists (Z.to_nat (z - a)). split; [lia|]. apply in_seq. lia.
Qed.

Lemma zrange_ascending (a b : Z) : StronglySorted Z.lt (zrange a b).
Proof.
  unfold zrange. generalize (Z.to_nat (b - a + 1)) as n. intros n.
  generalize 0%nat as k. induction n as [|n IH]; intros k; cbn [seq map].
  - constructor.
  - constructor; [apply IH|].
    apply Forall_forall. intros z Hz. apply in_map_iff in Hz.
    destruct Hz as (j & <- & Hj). apply in_seq in Hj. lia.
Qed.

Lemma ascending_app (l1 l2 : list Z) :
  StronglySorted Z.lt l1 -> StronglySorted Z.lt l2 ->
  (forall x y, In x l1 -> In y l2 -> x < y) ->
  StronglySorted Z.lt (l1 ++ l2).
Proof.
  intros H1 H2 H12. induction H1 as [|a l1 H1 IH Ha]; [exact H2|].
  cbn [app]. constructor.
  - apply IH. intros x y Hx. apply H12. now right.
  - apply Forall_app. split; [exact Ha|].
    apply Forall_forall. intros y Hy. apply H12; [now left | exact Hy].
Qed.

Lemma ascending_NoDup (l : list Z) : StronglySorted Z.lt l -> NoDup l.
Proof.
  induction 1 as [|a l Hs IH Ha]; constructor; [|exact IH].
  intros Hin. rewrite Forall_forall in Ha. specialize (Ha a Hin). lia.
Qed.

Lemma covers_values (pairs : list (Z * Z)) (z : Z) :
  covers pairs z <-> In z (flat_map (fun p => zrange (fst p) (snd p)) pairs).
Proof.
  unfold covers. rewrite in_flat_map.
  split; intros (p & Hp & Hz); exists p; (split; [exact Hp|]);
    apply In_zrange; exact Hz.
Qed.

Lemma values_ascending (pairs : list (Z * Z)) :
  StronglySorted apart pairs -> Forall (fun p => fst p <= snd p) pairs ->
  StronglySorted Z.lt (flat_map (fun p => zrange (fst p) (snd p)) pairs).
Proof.
  induction 1 as [|p pairs Hs IH Hp]; intros Hord; [constructor|].
  inversion Hord as [|? ? Hle Hord']; subst.
  cbn [flat_map]. apply ascending_app; [apply zrange_ascending | apply IH, Hord' |].
  intros x y Hx Hy. apply In_zrange in Hx. apply in_flat_map in Hy.
  destruct Hy as (q & Hq & Hy). apply In_zrange in Hy.
  rewrite Forall_forall in Hp. specialize (Hp q Hq). unfold apart in Hp. lia.
Qed.

(** Two lists of separated pairs that cover the same values are the same
    list. *)
Lemma canonical_unique (l : list Z) (out1 out2 : list (Z * Z)) :
  (forall z, covers out1 z <-> In z l) -> (forall z, covers out2 z <-> In z l) ->
  StronglySorted apart out1 -> StronglySorted apart out2 ->
  Forall (fun p => fst p <= snd p) out1 -> Forall (fun p => fst p <= snd p) out2 ->
  out1 = out2.
Proof.
  intros C1 C2 A1 A2 O1 O2.
  apply ascending_unique
    with (R := fun p q : Z * Z => apart p q /\ fst p <= snd p /\ fst q <= snd q).
  - unfold apart. intros x y H1 H2. lia.
  - clear C1. induction A1 as [|p out1 Hs IH Hp]; [constructor|].
    inversion O1 as [|? ? Hle O1']; subst.
    constructor; [apply IH, O1'|].
    rewrite Forall_forall in *. intros q Hq. auto.
  - clear C2. induction A2 as [|p out2 Hs IH Hp]; [constructor|].
    inversion O2 as [|? ? Hle O2']; subst.
    constructor; [apply IH, O2'|].
    rewrite Forall_forall in *. intros q Hq. auto.
  - apply NoDup_Permutation; try (apply apart_NoDup; assumption).
    intros [a b]. split; intros Hin.
    + apply (is_run_out l out2 C2 A2 O2), (out_is_run l out1 C1 A1 O1), Hin.
    + apply (is_run_out l out1 C1 A1 O1), (out_is_run l out2 C2 A2 O2), Hin.
Qed.

(** X4.  From pairs to integers and back: for pairs in order, ascending
    and separated, [ranges] on all the integers of their intervals yields
    the pairs again, and the tokens of the pairs read back as these
    integers. *)
Theorem ranges_of_values (pairs : list (Z * Z)) :
  StronglySorted apart pairs -> Forall (fun p => fst p <= snd p) pairs ->
  ranges (flat_map (fun p => zrange (fst p) (snd p)) pairs) = Done pairs
  /\ expand (flat_map hmPair pairs)
     = Some (flat_map (fun p => zrange (fst p) (snd p)) pairs).
Proof.
  intros Hap Hord. split; [|apply expand_pairs, Hord].
  set (l := flat_map (fun p => zrange (fst p) (snd p)) pairs).
  assert (Hnd : NoDup l) by (apply ascending_NoDup, values_ascending; assumption).
  rewrite (ranges_nodup l Hnd). f_equal.
  pose proof (sorted_strict l Hnd) as Hs.
  destruct (runs_apart (sorted l) Hs) as [Hap' Hord'].
  apply canonical_unique with (l := l); trivial.
  - intros z. rewrite runs_covers by exact Hs.
    split; apply Permutation_in;
      [apply sorted_perm | apply Permutation_sym, sorted_perm].
  - intros z. apply covers_values.
Qed.

Lemma ranges_of_values_witness :
  StronglySorted apart [(1, 4); (10, 12); (20, 20)]
  /\ ranges [1; 2; 3; 4; 10; 11; 12; 20] = Done [(1, 4); (10, 12); (20, 20)].
Proof.
  assert (Hap : StronglySorted apart [(1, 4); (10, 12); (20, 20)]).
  { repeat constructor; unfold apart; simpl; lia. }
  split; [exact Hap|].
  apply (ranges_of_values [(1, 4); (10, 12); (20, 20)] Hap).
  repeat constructor; simpl; lia.
Defined.

(** X5.  On every list, with duplicates or without, the tokens of
    [hmRanges] can be read back; they read back as a strictly ascending
    list of integers that holds every integer of the list. *)
Theorem hmRanges_expand_any (l : list Z) :
  exists tokens zs,
    hmRanges l = Done tokens
    /\ expand tokens = Some zs
    /\ StronglySorted Z.lt zs
    /\ forall z, In z l -> In z zs.
Proof.
  destruct (ranges_spec l) as (out & Hrun & _ & Hcov & _).
  destruct (outer_blocks (sorted l) (S (length l))) with (fuel := S (length l)) (lower := 0%nat)
    as (out' & Hrun' & _ & Hsorted); [rewrite sorted_length; lia | lia
                                     | rewrite sorted_length; lia |].
  assert (out' = out) as ->.
  { unfold ranges, ranges_fuel in Hrun. rewrite Hrun' in Hrun. congruence. }
  destruct (Hsorted (sorted_ascending l)) as [Hap Hall].
  assert (Hord : Forall (fun p => fst p <= snd p) out).
  { eapply Forall_impl; [|exact Hall]. simpl. intros p Hp. lia. }
  exists (flat_map hmPair out), (flat_map (fun p => zrange (fst p) (snd p)) out).
  split; [unfold hmRanges; rewrite Hrun; reflexivity|].
  split; [apply expand_pairs, Hord|].
  split; [apply values_ascending; assumption|].
  intros z Hz. apply covers_values, Hcov, Hz.
Qed.

(** ** The lines of a document *)

Lemma full_lines_max (hmList : list pyval) :
  (full_lines hmList + 2)%nat = record_lines (length hmList).
Proof.
  unfold record_lines, full_lines, ceil_div, len.
  destruct hmList as [|v hmList]; [reflexivity|]. simpl length. lia.
Qed.

Lemma hmset_line_lines (setType matId : Z) (matName : string) :
  physical_lines matName = O ->
  physical_lines (text_of_call (hmset_line setType matId matName)) = 1%nat.
Proof.
  intros Hname. unfold physical_lines in *.
  unfold hmset_line, line, text_of_call. cbn [p_args p_sep p_end map str String.concat].
  rewrite !count_char_app, !count_char_fmt_d, Hname by reflexivity. reflexivity.
Qed.

Lemma record_calls_lines (setType : Z) (item : Z * (string * list Z)) :
  physical_lines (fst (snd item)) = O ->
  physical_lines (contents (record_calls setType item))
  = record_lines (length (hm_tokens (snd (snd item)))).
Proof.
  destruct item as [matId [matName elems]]. cbn [fst snd]. intros Hname.
  unfold record_calls. rewrite contents_cons, contents_app.
  unfold physical_lines in *. rewrite !count_char_app.
  fold (physical_lines (text_of_call (set_line matId))).
  rewrite set_line_lines, chunk_calls_spec.
  fold (physical_lines
          (contents (map (fun c => Print c "," ("," ++ nl))
                         (map (fun k => firstn 8 (skipn (8 * k) (hm_tokens elems)))
                              (seq 0 (full_lines (hm_tokens elems))))
                     ++ [Print (skipn (8 * full_lines (hm_tokens elems)) (hm_tokens elems))
                               "," nl]))).
  pose proof (hm_tokens_one_line elems) as Hone.
  rewrite <- (chunks_concat (hm_tokens elems) (full_lines (hm_tokens elems))) in Hone.
  apply Forall_app in Hone. destruct Hone as [Hfull Hfinal].
  apply Forall_concat in Hfull.
  rewrite chunk_lines by assumption.
  rewrite length_map, length_seq.
  change (contents [hmset_line setType matId matName])
    with (String.concat EmptyString [text_of_call (hmset_line setType matId matName)]).
  cbn [String.concat].
  fold (physical_lines (text_of_call (hmset_line setType matId matName))).
  rewrite hmset_line_lines by exact Hname.
  rewrite <- full_lines_max. lia.
Qed.

Lemma records_lines (setType : Z) (items : list (string * list Z)) :
  Forall (fun item => physical_lines (fst item) = O) items ->
  forall start,
    physical_lines (contents (flat_map (record_calls setType) (enumerate start items)))
    = list_sum (map (fun item => record_lines (length (hm_tokens (snd item)))) items).
Proof.
  induction 1 as [|item items Hname Hall IH]; intros start; [reflexivity|].
  cbn [enumerate flat_map map list_sum]. rewrite contents_app.
  unfold physical_lines in *. rewrite count_char_app.
  fold (physical_lines (contents (record_calls setType (start, item)))).
  rewrite record_calls_lines by exact Hname.
  rewrite IH. reflexivity.
Qed.

(** X6.  When no set name holds a line break, the document of
    [bdfExport] has three physical lines for the header and the trailer,
    and for every set with K tokens max(1, ceil(K / 8)) lines of tokens
    and one '$HMSET' line. *)
Theorem document_lines (setDict : list (string * list Z)) (setType : Z) :
  Forall (fun item => physical_lines (fst item) = O) setDict ->
  exists text,
    document setDict setType = Done text
    /\ physical_lines text
       = (3 + list_sum (map (fun item => record_lines (length (hm_tokens (snd item))))
                            setDict))%nat.
Proof.
  intros Hnames. eexists. split; [apply document_spec|].
  pose proof (sort_by_perm item_ltb setDict) as Hperm.
  assert (Hnames' : Forall (fun item => physical_lines (fst item) = O)
                      (sort_by item_ltb setDict)).
  { rewrite Forall_forall in *. intros item Hin.
    apply Hnames, (Permutation_in _ Hperm), Hin. }
  unfold physical_lines at 1. rewrite !count_char_app.
  fold (physical_lines
          (contents (flat_map (record_calls setType)
                       (enumerate 1 (sort_by item_ltb setDict))))).
  rewrite (records_lines setType _ Hnames' 1).
  rewrite (Permutation_list_sum
             (Permutation_map (fun item => record_lines (length (hm_tokens (snd item))))
                Hperm)).
  cbn. lia.
Qed.

Lemma document_lines_witness :
  exists text,
    document [("SET_B", [2; 4; 6; 8; 10; 12; 14; 16; 18; 20]);
              ("SET_A", [10; 11; 12; 1; 2; 3; 4; 17; 18; 20])]%string 2 = Done text
    /\ physical_lines text = 8%nat.
Proof.
  destruct (document_lines
              [("SET_B", [2; 4; 6; 8; 10; 12; 14; 16; 18; 20]);
               ("SET_A", [10; 11; 12; 1; 2; 3; 4; 17; 18; 20])]%string 2)
    as (text & Hdoc & Hlines).
  - repeat constructor.
  - exists text. split; [exact Hdoc | exact Hlines].
Defined.

(** ** The progress notices *)

(** X7.  [bdfExport] prints on [sys.stderr] one line for every set,
    '<name> <number of members>', in the order in which it writes the
    sets; the number counts a member as often as it is listed.  What it
    writes to the file does not depend on what was printed on
    [sys.stderr] before. *)
Theorem bdfExport_notices (setDict : list (string * list Z)) (setType : Z) (w : streams) :
  exists w',
    bdfExport setDict setType w = Done w'
    /\ stderr w' = stderr w ++ map (fun item => notice (fst item) (snd item))
                                   (sort_by item_ltb setDict)
    /\ Permutation (sort_by item_ltb setDict) setDict
    /\ (forall matName elems,
          text_of_call (notice matName elems)
          = (matName ++ " " ++ str_of_Z (Z.of_nat (length elems)) ++ nl)%string)
    /\ forall w0, bdf w0 = bdf w ->
         exists w0', bdfExport setDict setType w0 = Done w0' /\ bdf w0' = bdf w'.
Proof.
  eexists. split; [apply bdfExport_spec|]. cbn [bdf stderr].
  split; [|split; [|split]].
  - f_equal. rewrite <- (enumerate_items (sort_by item_ltb setDict) 1) at 2.
    rewrite map_map. reflexivity.
  - apply sort_by_perm.
  - intros matName elems. unfold text_of_call, notice, len.
    cbn [p_args p_sep p_end map str String.concat].
    rewrite !append_assoc. reflexivity.
  - intros w0 Hbdf. eexists. split; [apply bdfExport_spec|].
    cbn [bdf]. rewrite Hbdf. reflexivity.
Qed.

(** ** Dictionaries *)

Lemma lookup_upsert_same {V : Type} (k : string) (f : option V -> V)
    (d : list (string * V)) :
  lookup k (upsert k f d) = Some (f (lookup k d)).
Proof.
  induction d as [|[k' v] d IH]; cbn [upsert lookup].
  - rewrite String.eqb_refl. reflexivity.
  - destruct (String.eqb k' k) eqn:E; cbn [lookup]; rewrite E; [reflexivity | exact IH].
Qed.

Lemma lookup_upsert_other {V : Type} (k k0 : string) (f : option V -> V)
    (d : list (string * V)) :
  k0 <> k -> lookup k0 (upsert k f d) = lookup k0 d.
Proof.
  intros Hne. induction d as [|[k' v] d IH]; cbn [upsert lookup].
  - destruct (String.eqb_spec k k0); [congruence | reflexivity].
  - destruct (String.eqb_spec k' k) as [->|Hk]; cbn [lookup].
    + destruct (String.eqb_spec k k0); [congruence | reflexivity].
    + rewrite IH. reflexivity.
Qed.

Lemma upsert_keys {V : Type} (k : string) (f : option V -> V) (d : list (string * V))
    (x : string) :
  In x (map fst (upsert k f d)) <-> x = k \/ In x (map fst d).
Proof.
  induction d as [|[k' v] d IH]; cbn [upsert map fst In].
  - intuition.
  - destruct (String.eqb_spec k' k) as [->|Hk]; cbn [map fst In].
    + intuition.
    + rewrite IH. intuition.
Qed.

Lemma upsert_NoDup {V : Type} (k : string) (f : option V -> V) (d : list (string * V)) :
  NoDup (map fst d) -> NoDup (map fst (upsert k f d)).
Proof.
  induction d as [|[k' v] d IH]; cbn [upsert map fst]; intros Hnd.
  - repeat constructor. intros [].
  - inversion Hnd as [|? ? Hnotin Hnd']; subst.
    destruct (String.eqb_spec k' k) as [->|Hk]; cbn [map fst].
    + constructor; assumption.
    + constructor; [|apply IH, Hnd'].
      rewrite upsert_keys. intros [->|Hin]; contradiction.
Qed.

(** ** The material sets of an instance *)

Lemma assigns_material (odb : Odb) (sa : odb_assignment) (m0 m : string) :
  material_of odb sa = Some m0 -> assigns odb m sa = String.eqb m0 m.
Proof. unfold assigns. intros ->. reflexivity. Qed.

Lemma assigns_none (odb : Odb) (sa : odb_assignment) (m : string) :
  material_of odb sa = None -> assigns odb m sa = false.
Proof. unfold assigns. intros ->. reflexivity. Qed.

Lemma filter_none {A : Type} (f : A -> bool) (l : list A) :
  existsb f l = false -> filter f l = [].
Proof.
  induction l as [|a l IH]; [reflexivity|]. cbn [existsb filter].
  destruct (f a); [discriminate|]. exact IH.
Qed.

Lemma collect_spec (odb : Odb) (assignments : list odb_assignment) :
  forall d0 d,
    collect odb assignments d0 = Returned d ->
    (NoDup (map fst d0) -> NoDup (map fst d))
    /\ forall m,
        lookup m d
        = if existsb (assigns odb m) assignments
          then Some (match lookup m d0 with Some v => v | None => [] end
                     ++ flat_map elements (filter (assigns odb m) assignments))
          else lookup m d0.
Proof.
  induction assignments as [|sa rest IH]; intros d0 d Hrun; cbn [collect] in Hrun.
  - injection Hrun as <-. split; [trivial|]. intros m. reflexivity.
  - destruct (lookup (sectionName sa) (sections odb)) as [section|] eqn:Hsec;
      [|discriminate].
    assert (Hskip : material_of odb sa = None ->
                    collect odb rest d0 = Returned d ->
                    (NoDup (map fst d0) -> NoDup (map fst d))
                    /\ forall m,
                        lookup m d
                        = if existsb (assigns odb m) (sa :: rest)
                          then Some (match lookup m d0 with Some v => v | None => [] end
                                     ++ flat_map elements
                                          (filter (assigns odb m) (sa :: rest)))
                          else lookup m d0).
    { intros Hnone Hrest. destruct (IH d0 d Hrest) as [Hnd Hm].
      split; [exact Hnd|]. intros m. cbn [existsb filter].
      rewrite (assigns_none odb sa m Hnone). cbn [orb]. apply Hm. }
    destruct (material section) as [m0|] eqn:Hmat.
    + destruct (String.eqb m0 EmptyString) eqn:Hempty.
      * apply Hskip; [|exact Hrun].
        unfold material_of. rewrite Hsec, Hmat, Hempty. reflexivity.
      * assert (Hof : material_of odb sa = Some m0)
          by (unfold material_of; rewrite Hsec, Hmat, Hempty; reflexivity).
        destruct (IH _ d Hrun) as [Hnd Hm]. split.
        -- intros Hnd0. apply Hnd. unfold setdefault_extend. apply upsert_NoDup, Hnd0.
        -- intros m. rewrite Hm. cbn [existsb filter].
           rewrite (assigns_material odb sa m0 m Hof).
           unfold setdefault_extend.
           destruct (String.eqb_spec m0 m) as [->|Hne]; cbn [orb].
           ++ rewrite lookup_upsert_same.
              destruct (existsb (assigns odb m) rest) eqn:Hex.
              ** cbn [flat_map]. rewrite <- app_assoc. reflexivity.
              ** rewrite (filter_none _ _ Hex). cbn [flat_map].
                 rewrite app_nil_r. reflexivity.
           ++ rewrite lookup_upsert_other by congruence. reflexivity.
    + apply Hskip; [|exact Hrun].
      unfold material_of. rewrite Hsec, Hmat. reflexivity.
Qed.

Lemma collect_defined (odb : Odb) (assignments : list odb_assignment) :
  Forall (defined odb) assignments ->
  forall d0, exists d, collect odb assignments d0 = Returned d.
Proof.
  induction 1 as [|sa rest Hsa Hrest IH]; intros d0; cbn [collect].
  - eexists. reflexivity.
  - unfold defined in Hsa.
    destruct (lookup (sectionName sa) (sections odb)) as [section|]; [|contradiction].
    destruct (material section) as [m0|]; [|apply IH].
    destruct (String.eqb m0 EmptyString); apply IH.
Qed.

Lemma collect_undefined (odb : Odb) (before : list odb_assignment) :
  Forall (defined odb) before ->
  forall sa after d0,
    lookup (sectionName sa) (sections odb) = None ->
    collect odb (before ++ sa :: after) d0 = KeyError (sectionName sa).
Proof.
  induction 1 as [|sb rest Hsb Hrest IH]; intros sa after d0 Hnone; cbn [app collect].
  - rewrite Hnone. reflexivity.
  - unfold defined in Hsb.
    destruct (lookup (sectionName sb) (sections odb)) as [section|]; [|contradiction].
    destruct (material section) as [m0|]; [|apply IH, Hnone].
    destruct (String.eqb m0 EmptyString); apply IH, Hnone.
Qed.

(** ** The files of [fromOdb] *)

Lemma string_length_app (a b : string) :
  String.length (a ++ b) = (String.length a + String.length b)%nat.
Proof. induction a as [|c a IH]; simpl; [|rewrite IH]; reflexivity. Qed.

Lemma append_inv_head (a x y : string) : (a ++ x)%string = (a ++ y)%string -> x = y.
Proof.
  induction a as [|c a IH]; simpl; intros H; [exact H|].
  injection H as H. apply IH, H.
Qed.

Lemma append_inv_tail (s : string) :
  forall a b : string, (a ++ s)%string = (b ++ s)%string -> a = b.
Proof.
  induction a as [|c a IH]; intros [|c' b] H; simpl in H.
  - reflexivity.
  - apply (f_equal String.length) in H. simpl in H.
    rewrite string_length_app in H. lia.
  - apply (f_equal String.length) in H. simpl in H.
    rewrite string_length_app in H. lia.
  - injection H as -> H. f_equal. apply IH, H.
Qed.

Lemma document_calls_spec (d : list (string * list Z)) (err : list print_call) :
  bdfExport d 2 (Streams [] err)
  = Done (Streams (document_calls d)
                  (err ++ map (fun item => notice (fst (snd item)) (snd (snd item)))
                              (enumerate 1 (sort_by item_ltb d)))).
Proof. rewrite bdfExport_spec. reflexivity. Qed.

Lemma document_calls_text (d : list (string * list Z)) :
  document d 2 = Done (contents (document_calls d)).
Proof. unfold document. rewrite document_calls_spec. reflexivity. Qed.

Section FromOdbFacts.
Variable repr : string -> string.
Variable splitext0 : string -> string.
Variable openOdb : string -> Odb.

Lemma fname_inj (odbName n1 n2 : string) :
  fname splitext0 odbName n1 = fname splitext0 odbName n2 -> n1 = n2.
Proof.
  unfold fname. intros H. apply append_inv_head in H.
  apply (append_inv_head "_material_") in H.
  apply append_inv_tail in H. exact H.
Qed.

Lemma reportInstance_spec (odb : Odb) (odbName : string) (instance : odb_instance)
    (w w' : world) :
  reportInstance splitext0 odb odbName instance w = Returned w' ->
  exists d,
    collect odb (sectionAssignments instance) [] = Returned d
    /\ files w' = match d with
                  | [] => files w
                  | _ :: _ => upsert (fname splitext0 odbName (name instance))
                                     (fun _ => document_calls d) (files w)
                  end.
Proof.
  unfold reportInstance. intros Hrun.
  destruct (collect odb (sectionAssignments instance) []) as [d| |]; try discriminate.
  exists d. split; [reflexivity|]. cbn [result_bind] in Hrun.
  destruct d as [|item d].
  - injection Hrun as <-. reflexivity.
  - rewrite document_calls_spec in Hrun. cbn in Hrun. injection Hrun as <-. reflexivity.
Qed.


(** The loop changes no file but those of the instances it reports. *)
Lemma forInstances_frame (odb : Odb) (odbName instanceName : string)
    (todo : list odb_instance) :
  forall w w',
    forInstances repr splitext0 odb odbName instanceName todo w = Returned w' ->
    forall f,
      (forall instance, In instance todo -> skipped instanceName instance = false ->
                        f <> fname splitext0 odbName (name instance)) ->
      lookup f (files w') = lookup f (files w).
Proof.
  induction todo as [|instance rest IH]; intros w w' Hrun f Hf; cbn [forInstances] in Hrun.
  - injection Hrun as <-. reflexivity.
  - destruct (skipped instanceName instance) eqn:Hskip.
    + rewrite (IH _ _ Hrun f); [reflexivity|].
      intros i Hi. apply Hf. now right.
    + destruct (reportInstance splitext0 odb odbName instance w) as [w1| |] eqn:Hrep;
        try discriminate.
      cbn [result_bind] in Hrun.
      rewrite (IH _ _ Hrun f) by (intros i Hi; apply Hf; now right).
      destruct (reportInstance_spec _ _ _ _ _ Hrep) as (d & _ & ->).
      destruct d; [reflexivity|].
      apply lookup_upsert_other. apply Hf; [now left | exact Hskip].
Qed.

Lemma forInstances_files (odb : Odb) (odbName instanceName : string)
    (todo : list odb_instance) :
  NoDup (map name todo) ->
  forall w w',
    forInstances repr splitext0 odb odbName instanceName todo w = Returned w' ->
    forall instance,
      In instance todo -> skipped instanceName instance = false ->
      exists d,
        collect odb (sectionAssignments instance) [] = Returned d
        /\ lookup (fname splitext0 odbName (name instance)) (files w')
           = match d with
             | [] => lookup (fname splitext0 odbName (name instance)) (files w)
             | _ :: _ => Some (document_calls d)
             end.
Proof.
  induction todo as [|i0 rest IH]; intros Hnd w w' Hrun instance Hin Hsel; [destruct Hin|].
  cbn [map] in Hnd. inversion Hnd as [|? ? Hnotin Hnd']; subst.
  cbn [forInstances] in Hrun.
  assert (Hother : forall i, In i rest ->
            fname splitext0 odbName (name i0) <> fname splitext0 odbName (name i)).
  { intros i Hi E. apply fname_inj in E. apply Hnotin. rewrite E. apply in_map, Hi. }
  destruct Hin as [->|Hin].
  - rewrite Hsel in Hrun.
    destruct (reportInstance splitext0 odb odbName instance w) as [w1| |] eqn:Hrep;
      try discriminate.
    cbn [result_bind] in Hrun.
    rewrite (forInstances_frame _ _ _ _ _ _ Hrun) by (intros i Hi _; apply Hother, Hi).
    destruct (reportInstance_spec _ _ _ _ _ Hrep) as (d & Hd & ->).
    exists d. split; [exact Hd|].
    destruct d; [reflexivity | apply lookup_upsert_same].
  - assert (Hne : fname splitext0 odbName (name instance)
                  <> fname splitext0 odbName (name i0))
      by (intros E; symmetry in E; exact (Hother instance Hin E)).
    destruct (skipped instanceName i0) eqn:Hskip.
    + apply (IH Hnd' _ _ Hrun instance Hin Hsel).
    + destruct (reportInstance splitext0 odb odbName i0 w) as [w1| |] eqn:Hrep;
        try discriminate.
      cbn [result_bind] in Hrun.
      destruct (IH Hnd' _ _ Hrun instance Hin Hsel) as (d & Hd & Hlook).
      exists d. split; [exact Hd|]. rewrite Hlook.
      destruct d; [|reflexivity].
      destruct (reportInstance_spec _ _ _ _ _ Hrep) as (d0 & _ & ->).
      destruct d0; [reflexivity|].
      apply lookup_upsert_other, Hne.
Qed.

End FromOdbFacts.

(** * Further properties: [fromOdb] *)

(** X8.  The material sets that [fromOdb] collects for an instance have
    distinct names, and the set of a material holds the element labels of
    all the section assignments of that material, one assignment after the
    other in the order of the assignments: assignments of the same
    material are merged, none replaces another.  A material that no
    assignment has gets no set. *)
Theorem collect_merges (odb : Odb) (assignments : list odb_assignment)
    (d : list (string * list Z)) :
  collect odb assignments [] = Returned d ->
  NoDup (map fst d)
  /\ forall m,
      lookup m d
      = if existsb (assigns odb m) assignments
        then Some (flat_map elements (filter (assigns odb m) assignments))
        else None.
Proof.
  intros Hrun. destruct (collect_spec odb assignments [] d Hrun) as [Hnd Hm].
  split; [apply Hnd; constructor | exact Hm].
Qed.

Lemma collect_merges_witness :
  collect example_odb
    [Assignment "Section-1" [1; 2; 3]; Assignment "Section-4" [9];
     Assignment "Section-3" [4]; Assignment "Section-2" [7]]%string []
  = Returned [("STEEL", [1; 2; 3; 4]); ("ALU", [7])]%string
  /\ lookup "STEEL" [("STEEL", [1; 2; 3; 4]); ("ALU", [7])]%string = Some [1; 2; 3; 4].
Proof.
  assert (Hrun : collect example_odb
            [Assignment "Section-1" [1; 2; 3]; Assignment "Section-4" [9];
             Assignment "Section-3" [4]; Assignment "Section-2" [7]]%string []
          = Returned [("STEEL", [1; 2; 3; 4]); ("ALU", [7])]%string) by reflexivity.
  split; [exact Hrun|].
  exact (proj2 (collect_merges _ _ _ Hrun) "STEEL"%string).
Defined.

(** X9.  The loop over the section assignments ends well when every
    assignment names a section of the database.  At the first assignment
    whose section name is not among the sections it raises [KeyError]
    with that name, whatever comes after. *)
Theorem collect_section_names (odb : Odb) (assignments : list odb_assignment)
    (d0 : list (string * list Z)) :
  (Forall (defined odb) assignments ->
   exists d, collect odb assignments d0 = Returned d)
  /\ (forall before sa after,
        assignments = before ++ sa :: after ->
        Forall (defined odb) before ->
        lookup (sectionName sa) (sections odb) = None ->
        collect odb assignments d0 = KeyError (sectionName sa)).
Proof.
  split.
  - intros Hdef. apply collect_defined, Hdef.
  - intros before sa after -> Hdef Hnone. apply collect_undefined; assumption.
Qed.

Section FromOdbProperties.
Variable repr : string -> string.
Variable splitext0 : string -> string.
Variable openOdb : string -> Odb.

(** X10.  With an instance name given, [fromOdb] creates or changes no file
    but the one of that instance,
    '<odb name without extension>_material_<instance name>.bdf'. *)
Theorem fromOdb_only_named (odbName instanceName : string) (w w' : world) :
  instanceName <> EmptyString ->
  fromOdb repr splitext0 openOdb odbName instanceName w = Returned w' ->
  forall f,
    f <> fname splitext0 odbName instanceName ->
    lookup f (files w') = lookup f (files w).
Proof.
  intros Hname Hrun f Hf. unfold fromOdb in Hrun.
  apply (forInstances_frame _ _ _ _ _ _ _ _ Hrun).
  intros instance _ Hsel. unfold skipped in Hsel.
  destruct (String.eqb_spec instanceName EmptyString); [contradiction|].
  destruct (String.eqb_spec (name instance) instanceName) as [->|]; [exact Hf|].
  discriminate.
Qed.

(** X11.  When the instances have distinct names, [fromOdb] leaves, for
    every instance that it does not skip: the file of the instance
    holding the document that [bdfExport] writes for its material sets as
    element sets, when the instance has a material; and the file of the
    instance as it was, when it has none.  The files of the instances it
    skips stay as they were. *)
Theorem fromOdb_files (odbName instanceName : string) (w w' : world) :
  NoDup (map name (instances (openOdb odbName))) ->
  fromOdb repr splitext0 openOdb odbName instanceName w = Returned w' ->
  forall instance,
    In instance (instances (openOdb odbName)) ->
    if skipped instanceName instance
    then lookup (fname splitext0 odbName (name instance)) (files w')
         = lookup (fname splitext0 odbName (name instance)) (files w)
    else
      exists d,
        collect (openOdb odbName) (sectionAssignments instance) [] = Returned d
        /\ NoDup (map fst d)
        /\ match d with
           | [] => lookup (fname splitext0 odbName (name instance)) (files w')
                   = lookup (fname splitext0 odbName (name instance)) (files w)
           | _ :: _ =>
               exists text,
                 document d 2 = Done text
                 /\ option_map contents
                      (lookup (fname splitext0 odbName (name instance)) (files w'))
                    = Some text
           end.
Proof.
  intros Hnd Hrun instance Hin. unfold fromOdb in Hrun.
  destruct (skipped instanceName instance) eqn:Hskip.
  - apply (forInstances_frame _ _ _ _ _ _ _ _ Hrun).
    intros i Hi Hsel E. apply fname_inj in E.
    unfold skipped in *.
    destruct (String.eqb_spec instanceName EmptyString); [discriminate|].
    cbn [negb andb] in *.
    destruct (String.eqb_spec (name i) instanceName); [|discriminate].
    destruct (String.eqb_spec (name instance) instanceName); [discriminate|].
    congruence.
  - destruct (forInstances_files _ _ _ _ _ _ Hnd _ _ Hrun instance Hin Hskip)
      as (d & Hd & Hlook).
    exists d. split; [exact Hd|].
    split; [apply (collect_merges _ _ _ Hd)|].
    destruct d as [|item d]; [exact Hlook|].
    eexists. split; [apply document_calls_text|].
    rewrite Hlook. reflexivity.
Qed.

End FromOdbProperties.

Lemma fromOdb_only_named_witness :
  exists w',
    fromOdb (fun s => s) (fun _ => "Job-1"%string) (fun _ => example_odb)
      "Job-1.odb" "PART-2-1" (World [] []) = Returned w'
    /\ lookup "Job-1_material_PART-1-1.bdf" (files w') = None.
Proof.
  eexists. split; [reflexivity|].
  refine (fromOdb_only_named (fun s => s) (fun _ => "Job-1"%string) (fun _ => example_odb)
            "Job-1.odb" "PART-2-1" (World [] []) _ _ eq_refl _ _);
    discriminate.
Defined.

Lemma fromOdb_files_witness :
  exists w',
    fromOdb (fun s => s) (fun _ => "Job-1"%string) (fun _ => example_odb)
      "Job-1.odb" EmptyString (World [] []) = Returned w'
    /\ exists text,
         document [("ALU"%string, [5; 6])] 2 = Done text
         /\ option_map contents (lookup "Job-1_material_PART-2-1.bdf" (files w'))
            = Some text.
Proof.
  eexists. split; [reflexivity|].
  assert (Hnd : NoDup (map name (instances example_odb))).
  { repeat (constructor; [simpl; intuition discriminate|]). constructor. }
  destruct (fromOdb_files (fun s => s) (fun _ => "Job-1"%string) (fun _ => example_odb)
              "Job-1.odb" EmptyString (World [] []) _ Hnd eq_refl
              (Instance "PART-2-1" [Assignment "Section-2" [5; 6]])
              (or_intror (or_introl eq_refl)))
    as (d & Hd & _ & Hfile).
  injection Hd as <-. exact Hfile.
Defined.

